(** * crawler/base.py: the Crawler orchestration engine

    A shallow embedding of [Crawler] (src/crawler/base.py): the three bounded
    or unbounded queues, the task generator thread, the network and parser
    worker pools and the orchestrating [run] loop.  Every thread is a small
    program-counter machine whose states are the source lines at which the
    thread touches shared state; the system interleaves the threads under an
    explicit schedule. *)

From Stdlib Require Import ZArith String List Bool Lia.
From stdpp Require Import base tactics option list gmap strings.

Local Open Scope string_scope.
Local Open Scope Z_scope.
Local Open Scope list_scope.

(** ** Python values crossing the engine *)

(** Object identity of a [Request]; two occurrences of one identity are the
    same mutable object. *)
Definition ReqId := nat.

(** [Response] objects are opaque to the engine. *)
Definition Resp := nat.

(** Exceptions deriving from [Exception].  [NetworkError] is the transport's
    transient kind (curl_transport.py), [UnknownTaskType] comes from error.py;
    [OtherError] stands for any other [Exception] subclass raised by the
    transport, a generator or a handler. *)
Inductive Exn :=
| NetworkError (msg : string)
| UnknownTaskType (msg : string)
| AssertionError
| KeyError (key : string)
| TypeError (msg : string)
| OtherError (name msg : string).

#[global] Instance Exn_eq_dec : EqDecision Exn.
Proof. solve_decision. Defined.

(** [except NetworkError as ex] *)
Definition is_NetworkError (e : Exn) : bool :=
  match e with NetworkError _ => true | _ => false end.

(** Outcome of a call that may raise. *)
Inductive Result (A : Type) :=
| Ok (a : A)
| Raise (e : Exn).
Arguments Ok {A} a.
Arguments Raise {A} e.

#[global] Instance Result_eq_dec `{EqDecision A} : EqDecision (Result A).
Proof. solve_decision. Defined.

(** What a task generator or a handler may yield: a [Request] object, a
    tuple (given by the [str] of its elements) or any other object (given by
    its [str]). *)
Inductive PyVal :=
| VReq (r : ReqId)
| VTuple (elems : list string)
| VObj (str : string).

#[global] Instance PyVal_eq_dec : EqDecision PyVal.
Proof. solve_decision. Defined.

(** [isinstance(v, Request)] *)
Definition isinstance_Request (v : PyVal) : option ReqId :=
  match v with VReq r => Some r | _ => None end.

(** ['Unknown task got from task_generator: %s' % task] (line 73).  The
    right operand of [%] is taken as the argument tuple when it is a tuple,
    so only a one-element tuple fits the single [%s]. *)
Definition unknown_task_message (task : PyVal) : Result string :=
  let fmt := "Unknown task got from task_generator: " in
  match task with
  | VObj s => Ok (fmt +:+ s)
  | VReq _ => Ok (fmt +:+ "<Request>")
  | VTuple [s] => Ok (fmt +:+ s)
  | VTuple [] => Raise (TypeError "not enough arguments for format string")
  | VTuple _ =>
      Raise (TypeError "not all arguments converted during string formatting")
  end.

(** Modelled from the spec: the [Request] value object (crawler/request.py is
    not among the sources): an attribute bag with a [url], the [tag] that
    selects the handler and the mutable [network_try_count]. *)
Record Request := mkRequest {
  url : string;
  tag : string;
  network_try_count : Z;
}.

(** [req.network_try_count = v] *)
Definition set_network_try_count (v : Z) (rq : Request) : Request :=
  {| url := url rq; tag := tag rq; network_try_count := v |}.

(** ** queue.Queue *)

Record Queue (A : Type) := mkQueue {
  maxsize : Z;
  items : list A;
}.
Arguments mkQueue {A} maxsize items.
Arguments maxsize {A} q.
Arguments items {A} q.

Definition qsize {A} (q : Queue A) : Z := Z.of_nat (length (items q)).

(** [Queue.full]: a queue whose [maxsize] is not positive is unbounded. *)
Definition full {A} (q : Queue A) : bool :=
  (0 <? maxsize q) && (maxsize q <=? qsize q).

(** [Queue.put(x)] without timeout: [None] while the caller is blocked. *)
Definition put {A} (x : A) (q : Queue A) : option (Queue A) :=
  if full q then None
  else Some {| maxsize := maxsize q; items := items q ++ [x] |}.

(** [Queue.get()]: [None] when the queue is empty (a blocking [get] waits, a
    [get(True, timeout)] raises [Empty]). *)
Definition get {A} (q : Queue A) : option (A * Queue A) :=
  match items q with
  | [] => None
  | x :: rest => Some (x, {| maxsize := maxsize q; items := rest |})
  end.

(** ** threading.Event *)

Record Event := mkEvent { flag : bool }.

Definition Event_set (e : Event) : Event := {| flag := true |}.
Definition Event_clear (e : Event) : Event := {| flag := false |}.
Definition is_set (e : Event) : bool := flag e.

(** Truth value of an [Event] object in a condition: [threading.Event]
    defines neither [__bool__] nor [__len__], so the object is true whatever
    its flag. *)
Definition Event_truth (e : Event) : bool := true.

(** ** Crawler *)

Record Config := mkConfig {
  num_network_threads : Z;
  num_parsers : Z;
  network_try_limit : Z;
  task_try_limit : Z;
}.

(** Result of calling a handler: it raises, returns [None], or returns an
    iterable that yields [ys] and then stops or raises [fin]. *)
Inductive HResult :=
| HRaise (e : Exn)
| HNone
| HIter (ys : list PyVal) (fin : option Exn).

Abbreviation Handler := (ReqId → Resp → HResult) (only parsing).

(** An attribute found by [dir(self)]. *)
Inductive Attr :=
| Callable (h : Handler)
| NotCallable.

(** One pull from the task generator. *)
Inductive GenEvent :=
| GYield (task : PyVal)
| GRaise (e : Exn)
| GStop.

(** The user's subclass: its [task_generator] (the k-th pull) and the
    attributes [dir(self)] lists. *)
Record CrawlerClass := mkClass {
  task_generator : nat → GenEvent;
  members : list (string * Attr);
}.

(** [Crawler.task_generator] of the base class: [if False: yield None]. *)
Definition base_task_generator : nat → GenEvent := fun _ => GStop.

(** The per-thread dictionary entry of [start_threads]; the ['thread'] slot
    is the thread's program counter in [Sys]. *)
Record WorkerRec := mkWorkerRec {
  active : bool;
  paused : bool;
}.

Definition set_active (b : bool) (w : WorkerRec) : WorkerRec :=
  {| active := b; paused := paused w |}.
Definition set_paused (b : bool) (w : WorkerRec) : WorkerRec :=
  {| active := active w; paused := b |}.

(** The attributes of a [Crawler] object.  [_net_threads] and
    [_parser_threads] are dictionaries keyed by thread identity; the k-th
    started thread has key k. *)
Record Crawler := mkCrawler {
  config : Config;
  _request_queue : Queue (option ReqId);
  _response_queue : Queue (option (ReqId * Resp));
  _fatal_errors : Queue Exn;
  _stat : list (string * string);
  _work_allowed : bool;
  _pause_event : Event;
  _resume_event : Event;
  _net_threads : list WorkerRec;
  _parser_threads : list WorkerRec;
  _handlers : gmap string Handler;
}.

(** [Crawler.__init__]; [cpu_count] is [multiprocessing.cpu_count()]. *)
Definition __init__ (cpu_count : Z)
    (num_network_threads network_try_limit task_try_limit : Z) : Crawler :=
  let config :=
    {| num_network_threads := num_network_threads;
       num_parsers := Z.max 1 (cpu_count / 2);
       network_try_limit := network_try_limit;
       task_try_limit := task_try_limit |} in
  {| config := config;
     _request_queue := mkQueue (num_network_threads) [];
     _response_queue := mkQueue (num_parsers config) [];
     _fatal_errors := mkQueue 0 [];
     _stat := [];
     _work_allowed := true;
     _pause_event := mkEvent false;
     _resume_event := mkEvent false;
     _net_threads := [];
     _parser_threads := [];
     _handlers := ∅ |}.

(** The defaults of the constructor's signature. *)
Definition default_init (cpu_count : Z) : Crawler := __init__ cpu_count 10 10 10.

Definition with_request_queue (q : Queue (option ReqId)) (c : Crawler) : Crawler :=
  mkCrawler (config c) q (_response_queue c) (_fatal_errors c) (_stat c)
    (_work_allowed c) (_pause_event c) (_resume_event c) (_net_threads c)
    (_parser_threads c) (_handlers c).
Definition with_response_queue (q : Queue (option (ReqId * Resp))) (c : Crawler) : Crawler :=
  mkCrawler (config c) (_request_queue c) q (_fatal_errors c) (_stat c)
    (_work_allowed c) (_pause_event c) (_resume_event c) (_net_threads c)
    (_parser_threads c) (_handlers c).
Definition with_fatal_errors (q : Queue Exn) (c : Crawler) : Crawler :=
  mkCrawler (config c) (_request_queue c) (_response_queue c) q (_stat c)
    (_work_allowed c) (_pause_event c) (_resume_event c) (_net_threads c)
    (_parser_threads c) (_handlers c).
Definition with_stat (st : list (string * string)) (c : Crawler) : Crawler :=
  mkCrawler (config c) (_request_queue c) (_response_queue c) (_fatal_errors c) st
    (_work_allowed c) (_pause_event c) (_resume_event c) (_net_threads c)
    (_parser_threads c) (_handlers c).
Definition with_work_allowed (b : bool) (c : Crawler) : Crawler :=
  mkCrawler (config c) (_request_queue c) (_response_queue c) (_fatal_errors c)
    (_stat c) b (_pause_event c) (_resume_event c) (_net_threads c)
    (_parser_threads c) (_handlers c).
Definition with_pause_event (e : Event) (c : Crawler) : Crawler :=
  mkCrawler (config c) (_request_queue c) (_response_queue c) (_fatal_errors c)
    (_stat c) (_work_allowed c) e (_resume_event c) (_net_threads c)
    (_parser_threads c) (_handlers c).
Definition with_resume_event (e : Event) (c : Crawler) : Crawler :=
  mkCrawler (config c) (_request_queue c) (_response_queue c) (_fatal_errors c)
    (_stat c) (_work_allowed c) (_pause_event c) e (_net_threads c)
    (_parser_threads c) (_handlers c).
Definition with_net_threads (ws : list WorkerRec) (c : Crawler) : Crawler :=
  mkCrawler (config c) (_request_queue c) (_response_queue c) (_fatal_errors c)
    (_stat c) (_work_allowed c) (_pause_event c) (_resume_event c) ws
    (_parser_threads c) (_handlers c).
Definition with_parser_threads (ws : list WorkerRec) (c : Crawler) : Crawler :=
  mkCrawler (config c) (_request_queue c) (_response_queue c) (_fatal_errors c)
    (_stat c) (_work_allowed c) (_pause_event c) (_resume_event c)
    (_net_threads c) ws (_handlers c).
Definition with_handlers (hs : gmap string Handler) (c : Crawler) : Crawler :=
  mkCrawler (config c) (_request_queue c) (_response_queue c) (_fatal_errors c)
    (_stat c) (_work_allowed c) (_pause_event c) (_resume_event c)
    (_net_threads c) (_parser_threads c) hs.

(** [Crawler.shutdown] *)
Definition shutdown (c : Crawler) : Crawler := with_work_allowed false c.

(** [key[8:]] *)
Definition strip_handler_prefix (key : string) : string :=
  String.substring 8 (String.length key - 8)%nat key.

(** [Crawler.register_handlers], over the attributes [dir(self)] lists. *)
Definition register_handlers (dir_self : list (string * Attr)) : gmap string Handler :=
  fold_left
    (fun handlers '(key, thing) =>
       if String.prefix "handler_" key then
         match thing with
         | Callable h => <[strip_handler_prefix key := h]> handlers
         | NotCallable => handlers
         end
       else handlers)
    dir_self ∅.

(** The dictionary side of [Crawler.start_threads]: [num] fresh entries. *)
Definition start_threads (pool : list WorkerRec) (num : Z) : list WorkerRec :=
  pool ++ replicate (Z.to_nat num) {| active := false; paused := false |}.

(** ** Threads *)

(** Each thread is a machine over the program points at which the source
    touches shared state; one step performs one such access.  A [put] on a
    full queue, a blocking [get] on an empty one, [Event.wait] on a cleared
    event and [join] on a running thread cannot step.  A [get] with a
    timeout steps to its [Empty] branch when the queue is empty: the model
    abstracts from how long the thread waited.  The scans of lines 194-197,
    208-211 and 221-224 read one flag per step, in dictionary order.  The
    [+=] of line 92 is a read of the attribute and a write of the sum: two
    steps, between which other threads may run. *)

(** Program counters of [worker_task_generator] (lines 64-76). *)
Inductive GenPC :=
| G_new                        (* thread object not started yet *)
| G_next (k : nat)             (* line 66: pull the k-th task *)
| G_put (k : nat) (r : ReqId)  (* line 70: _request_queue.put(task) *)
| G_fatal (ex : Exn)           (* line 76: _fatal_errors.put(ex) *)
| G_done.

(** Program counters of [worker_network] (lines 81-105). *)
Inductive NetPC :=
| N_get                                 (* line 83 *)
| N_active (r : ReqId)                  (* line 86 *)
| N_fetch (r : ReqId)                   (* line 90 *)
| N_incr (r : ReqId) (ex : Exn)         (* line 92: read the count *)
| N_store (r : ReqId) (ex : Exn) (v : Z) (* line 92: write back v + 1 *)
| N_cmp (r : ReqId) (ex : Exn)          (* line 93 *)
| N_reject (r : ReqId) (ex : Exn)       (* lines 94-97 *)
| N_requeue (r : ReqId)                 (* line 99 *)
| N_fatal (ex : Exn)                    (* line 101 *)
| N_result (r : ReqId) (resp : Resp)    (* line 103 *)
| N_inactive                            (* line 105 *)
| N_done.                               (* line 85 *)

(** Program counters of [worker_parser] (lines 120-145). *)
Inductive ParPC :=
| P_get                                          (* line 123 *)
| P_empty                                        (* line 125 *)
| P_pause                                        (* line 126 *)
| P_wait                                         (* line 127 *)
| P_unpause                                      (* line 128 *)
| P_dispatch (r : ReqId) (resp : Resp)           (* lines 132-138 *)
| P_iter (ys : list PyVal) (fin : option Exn)    (* lines 140-141 *)
| P_put (r : ReqId) (ys : list PyVal) (fin : option Exn)  (* line 142 *)
| P_fatal (ex : Exn)                             (* lines 144-145 *)
| P_done                                         (* line 131 *)
| P_crashed (ex : Exn).                          (* uncaught exception *)

(** Program counters of [run] (lines 162-243).  [pend] is the exception in
    flight while the [finally] block runs. *)
Inductive RunPC :=
| R_start                                        (* lines 163-178 *)
| R_loop                                         (* line 180 *)
| R_poll                                         (* line 182 *)
| R_alive                                        (* line 187 *)
| R_q1                                           (* line 189 *)
| R_q2                                           (* line 190 *)
| R_pause                                        (* line 193 *)
| R_wait_paused (k : nat)                        (* lines 194-198 *)
| R_c1                                           (* line 206 *)
| R_c2                                           (* line 207 *)
| R_c3 (k : nat)                                 (* lines 208-211 *)
| R_disallow                                     (* line 214 *)
| R_unpause                                      (* line 218 *)
| R_resume                                       (* line 219 *)
| R_wait_unpaused (k : nat)                      (* lines 221-225 *)
| R_resume_clear                                 (* line 226 *)
| R_sent_net (k : nat) (pend : option Exn)       (* lines 229-230 *)
| R_sent_par (k : nat) (pend : option Exn)       (* lines 231-232 *)
| R_join_net (k : nat) (pend : option Exn)       (* line 234 *)
| R_join_par (k : nat) (pend : option Exn)       (* line 236 *)
| R_drain (pend : option Exn)                    (* line 238 *)
| R_hook (pend : option Exn)                     (* line 243 *)
| R_raised (ex : Exn)                            (* run raised ex *)
| R_returned.                                    (* run returned *)

#[global] Instance GenPC_eq_dec : EqDecision GenPC.
Proof. solve_decision. Defined.
#[global] Instance NetPC_eq_dec : EqDecision NetPC.
Proof. solve_decision. Defined.
#[global] Instance ParPC_eq_dec : EqDecision ParPC.
Proof. solve_decision. Defined.
#[global] Instance RunPC_eq_dec : EqDecision RunPC.
Proof. solve_decision. Defined.

(** What an outside observer records of a run (a history variable; it never
    influences a step). *)
Inductive Obs :=
| ObsFetch (i : nat) (r : ReqId) (tr : Result Resp)
    (* worker i called network_transport.process_request(r) *)
| ObsRejected (r : ReqId) (resp : option Resp) (ex : Exn)
    (* process_rejected_request(req, None, ex) *)
| ObsTaskPut (x : option ReqId)            (* _request_queue.put(x) returned *)
| ObsResultPut (x : option (ReqId * Resp)) (* _response_queue.put(x) returned *)
| ObsFatalPut (ex : Exn)                   (* _fatal_errors.put(ex) returned *)
| ObsJoinNet (k : nat)                     (* join of the k-th network thread returned *)
| ObsJoinParser (k : nat)                  (* join of the k-th parser thread returned *)
| ObsDisallow                              (* line 214 *)
| ObsShutdownHook.                         (* shutdown_hook() *)

#[global] Instance Obs_eq_dec : EqDecision Obs.
Proof. solve_decision. Defined.

(** The whole system: the [Crawler] object, the [Request] objects it may
    ever be handed, one program counter per thread and the observer's log
    (latest first). *)
Record Sys := mkSys {
  crawler : Crawler;
  heap : gmap ReqId Request;
  gen : GenPC;
  nets : list NetPC;
  parsers : list ParPC;
  main : RunPC;
  log : list Obs;
}.

Definition upd_crawler (f : Crawler → Crawler) (s : Sys) : Sys :=
  mkSys (f (crawler s)) (heap s) (gen s) (nets s) (parsers s) (main s) (log s).
Definition upd_heap (f : gmap ReqId Request → gmap ReqId Request) (s : Sys) : Sys :=
  mkSys (crawler s) (f (heap s)) (gen s) (nets s) (parsers s) (main s) (log s).
Definition set_gen (pc : GenPC) (s : Sys) : Sys :=
  mkSys (crawler s) (heap s) pc (nets s) (parsers s) (main s) (log s).
Definition set_net (i : nat) (pc : NetPC) (s : Sys) : Sys :=
  mkSys (crawler s) (heap s) (gen s) (<[i := pc]> (nets s)) (parsers s) (main s) (log s).
Definition set_par (j : nat) (pc : ParPC) (s : Sys) : Sys :=
  mkSys (crawler s) (heap s) (gen s) (nets s) (<[j := pc]> (parsers s)) (main s) (log s).
Definition set_main (pc : RunPC) (s : Sys) : Sys :=
  mkSys (crawler s) (heap s) (gen s) (nets s) (parsers s) pc (log s).
Definition emit (o : Obs) (s : Sys) : Sys :=
  mkSys (crawler s) (heap s) (gen s) (nets s) (parsers s) (main s) (o :: log s).

(** A freshly constructed crawler, before [run] is called, together with
    the requests its generator and handlers will hand out. *)
Definition boot (c : Crawler) (pool : gmap ReqId Request) : Sys :=
  mkSys c pool G_new [] [] R_start [].

(** [self._request_queue.put(x)] *)
Definition request_put (x : option ReqId) (s : Sys) : option Sys :=
  q ← put x (_request_queue (crawler s));
  Some (emit (ObsTaskPut x) (upd_crawler (with_request_queue q) s)).

(** [self._response_queue.put(x)] *)
Definition response_put (x : option (ReqId * Resp)) (s : Sys) : option Sys :=
  q ← put x (_response_queue (crawler s));
  Some (emit (ObsResultPut x) (upd_crawler (with_response_queue q) s)).

(** [self._fatal_errors.put(ex)] *)
Definition fatal_put (ex : Exn) (s : Sys) : option Sys :=
  q ← put ex (_fatal_errors (crawler s));
  Some (emit (ObsFatalPut ex) (upd_crawler (with_fatal_errors q) s)).

(** The exception that [raise UnknownTaskType('...: %s' % task)] raises. *)
Definition raise_UnknownTaskType (task : PyVal) : Exn :=
  match unknown_task_message task with
  | Ok msg => UnknownTaskType msg
  | Raise ex => ex
  end.

(** One step of [Crawler.worker_task_generator]. *)
Definition worker_task_generator (cls : CrawlerClass) (s : Sys) : option Sys :=
  match gen s with
  | G_next k =>
      match task_generator cls k with
      | GStop => Some (set_gen G_done s)
      | GRaise ex => Some (set_gen (G_fatal ex) s)
      | GYield task =>
          if negb (_work_allowed (crawler s)) then Some (set_gen G_done s)
          else match isinstance_Request task with
               | Some r => Some (set_gen (G_put k r) s)
               | None => Some (set_gen (G_fatal (raise_UnknownTaskType task)) s)
               end
      end
  | G_put k r => set_gen (G_next (S k)) <$> request_put (Some r) s
  | G_fatal ex => set_gen G_done <$> fatal_put ex s
  | G_new | G_done => None
  end.

(** [str(ex)] *)
Definition Exn_str (ex : Exn) : string :=
  match ex with
  | NetworkError m | UnknownTaskType m | TypeError m | OtherError _ m => m
  | AssertionError => ""
  | KeyError k => "'" +:+ k +:+ "'"
  end.

(** One step of [Crawler.worker_network] run by the i-th network thread;
    [tr] is what [network_transport.process_request] does if it is called
    in this step (line 90). *)
Definition worker_network (i : nat) (tr : Result Resp) (s : Sys) : option Sys :=
  pc ← nets s !! i;
  match pc with
  | N_get =>
      '(req, q) ← get (_request_queue (crawler s));
      let s := upd_crawler (with_request_queue q) s in
      match req with
      | None => Some (set_net i N_done s)
      | Some r => Some (set_net i (N_active r) s)
      end
  | N_active r =>
      Some (set_net i (N_fetch r)
              (upd_crawler (fun c => with_net_threads
                 (alter (set_active true) i (_net_threads c)) c) s))
  | N_fetch r =>
      let s := emit (ObsFetch i r tr) s in
      match tr with
      | Ok resp => Some (set_net i (N_result r resp) s)
      | Raise ex =>
          if is_NetworkError ex then Some (set_net i (N_incr r ex) s)
          else Some (set_net i (N_fatal ex) s)
      end
  | N_incr r ex =>
      req ← heap s !! r;
      Some (set_net i (N_store r ex (network_try_count req)) s)
  | N_store r ex v =>
      _ ← heap s !! r;
      Some (set_net i (N_cmp r ex)
              (upd_heap (alter (set_network_try_count (v + 1)) r) s))
  | N_cmp r ex =>
      req ← heap s !! r;
      if network_try_limit (config (crawler s)) <? network_try_count req
      then Some (set_net i (N_reject r ex) s)
      else Some (set_net i (N_requeue r) s)
  | N_reject r ex =>
      req ← heap s !! r;
      Some (set_net i N_inactive
              (emit (ObsRejected r None ex)
                 (upd_crawler (fun c => with_stat
                    (_stat c ++ [("network_try_limit", url req +:+ "|" +:+ Exn_str ex)]) c) s)))
  | N_requeue r => set_net i N_inactive <$> request_put (Some r) s
  | N_fatal ex => set_net i N_inactive <$> fatal_put ex s
  | N_result r resp => set_net i N_inactive <$> response_put (Some (r, resp)) s
  | N_inactive =>
      Some (set_net i N_get
              (upd_crawler (fun c => with_net_threads
                 (alter (set_active false) i (_net_threads c)) c) s))
  | N_done => None
  end.

(** One step of [Crawler.worker_parser] run by the j-th parser thread. *)
Definition worker_parser (j : nat) (s : Sys) : option Sys :=
  pc ← parsers s !! j;
  match pc with
  | P_get =>
      match get (_response_queue (crawler s)) with
      | None => Some (set_par j P_empty s)
      | Some (task, q) =>
          let s := upd_crawler (with_response_queue q) s in
          match task with
          | None => Some (set_par j P_done s)
          | Some (r, resp) => Some (set_par j (P_dispatch r resp) s)
          end
      end
  | P_empty =>
      if Event_truth (_pause_event (crawler s)) then Some (set_par j P_pause s)
      else Some (set_par j P_get s)
  | P_pause =>
      Some (set_par j P_wait
              (upd_crawler (fun c => with_parser_threads
                 (alter (set_paused true) j (_parser_threads c)) c) s))
  | P_wait =>
      if is_set (_resume_event (crawler s)) then Some (set_par j P_unpause s)
      else None
  | P_unpause =>
      Some (set_par j P_get
              (upd_crawler (fun c => with_parser_threads
                 (alter (set_paused false) j (_parser_threads c)) c) s))
  | P_dispatch r resp =>
      req ← heap s !! r;
      match _handlers (crawler s) !! tag req with
      | None => Some (set_par j (P_crashed (KeyError (tag req))) s)
      | Some handler =>
          match handler r resp with
          | HRaise ex => Some (set_par j (P_fatal ex) s)
          | HNone => Some (set_par j P_get s)
          | HIter ys fin => Some (set_par j (P_iter ys fin) s)
          end
      end
  | P_iter ys fin =>
      match ys with
      | [] =>
          match fin with
          | None => Some (set_par j P_get s)
          | Some ex => Some (set_par j (P_fatal ex) s)
          end
      | item :: rest =>
          match isinstance_Request item with
          | Some r => Some (set_par j (P_put r rest fin) s)
          | None => Some (set_par j (P_fatal AssertionError) s)
          end
      end
  | P_put r rest fin => set_par j (P_iter rest fin) <$> request_put (Some r) s
  | P_fatal ex => set_par j P_get <$> fatal_put ex s
  | P_done | P_crashed _ => None
  end.

(** [Thread.is_alive()] of the task generator thread. *)
Definition gen_alive (pc : GenPC) : bool :=
  match pc with G_new | G_done => false | _ => true end.

(** A network thread has returned. *)
Definition net_finished (pc : NetPC) : bool :=
  match pc with N_done => true | _ => false end.

(** A parser thread has returned or died. *)
Definition parser_finished (pc : ParPC) : bool :=
  match pc with P_done | P_crashed _ => true | _ => false end.

(** Lines 163-178 of [run]: register the handlers, start the generator
    thread and the two pools. *)
Definition run_start (cls : CrawlerClass) (s : Sys) : Sys :=
  let c := crawler s in
  let c := with_handlers (register_handlers (members cls)) c in
  let c := with_net_threads
             (start_threads (_net_threads c) (num_network_threads (config c))) c in
  let c := with_parser_threads
             (start_threads (_parser_threads c) (num_parsers (config c))) c in
  mkSys c (heap s) (G_next 0)
    (nets s ++ replicate (Z.to_nat (num_network_threads (config c))) N_get)
    (parsers s ++ replicate (Z.to_nat (num_parsers (config c))) P_get)
    R_loop (log s).

(** One step of [Crawler.run] on the calling thread. *)
Definition run (cls : CrawlerClass) (s : Sys) : option Sys :=
  let c := crawler s in
  match main s with
  | R_start => Some (run_start cls s)
  | R_loop =>
      if _work_allowed c then Some (set_main R_poll s)
      else Some (set_main (R_sent_net 0 None) s)
  | R_poll =>
      match get (_fatal_errors c) with
      | Some (ex, q) =>
          Some (set_main (R_sent_net 0 (Some ex)) (upd_crawler (with_fatal_errors q) s))
      | None => Some (set_main R_alive s)
      end
  | R_alive =>
      if gen_alive (gen s) then Some (set_main R_loop s)
      else Some (set_main R_q1 s)
  | R_q1 =>
      if qsize (_request_queue c) =? 0 then Some (set_main R_q2 s)
      else Some (set_main R_loop s)
  | R_q2 =>
      if qsize (_response_queue c) =? 0 then Some (set_main R_pause s)
      else Some (set_main R_loop s)
  | R_pause =>
      Some (set_main (R_wait_paused 0)
              (upd_crawler (fun c => with_pause_event (Event_set (_pause_event c)) c) s))
  | R_wait_paused k =>
      match _parser_threads c !! k with
      | None => Some (set_main R_c1 s)
      | Some x =>
          if paused x then Some (set_main (R_wait_paused (S k)) s)
          else Some (set_main (R_wait_paused 0) s)
      end
  | R_c1 =>
      if qsize (_request_queue c) =? 0 then Some (set_main R_c2 s)
      else Some (set_main R_unpause s)
  | R_c2 =>
      if qsize (_response_queue c) =? 0 then Some (set_main (R_c3 0) s)
      else Some (set_main R_unpause s)
  | R_c3 k =>
      match _net_threads c !! k with
      | None => Some (set_main R_disallow s)
      | Some x =>
          if active x then Some (set_main R_unpause s)
          else Some (set_main (R_c3 (S k)) s)
      end
  | R_disallow =>
      Some (set_main R_unpause (emit ObsDisallow (upd_crawler (with_work_allowed false) s)))
  | R_unpause =>
      Some (set_main R_resume
              (upd_crawler (fun c => with_pause_event (Event_clear (_pause_event c)) c) s))
  | R_resume =>
      Some (set_main (R_wait_unpaused 0)
              (upd_crawler (fun c => with_resume_event (Event_set (_resume_event c)) c) s))
  | R_wait_unpaused k =>
      match _parser_threads c !! k with
      | None => Some (set_main R_resume_clear s)
      | Some x =>
          if paused x then Some (set_main (R_wait_unpaused 0) s)
          else Some (set_main (R_wait_unpaused (S k)) s)
      end
  | R_resume_clear =>
      Some (set_main R_loop
              (upd_crawler (fun c => with_resume_event (Event_clear (_resume_event c)) c) s))
  | R_sent_net k pend =>
      if Z.of_nat k <? num_network_threads (config c)
      then set_main (R_sent_net (S k) pend) <$> request_put None s
      else Some (set_main (R_sent_par 0 pend) s)
  | R_sent_par k pend =>
      if Z.of_nat k <? num_parsers (config c)
      then set_main (R_sent_par (S k) pend) <$> response_put None s
      else Some (set_main (R_join_net 0 pend) s)
  | R_join_net k pend =>
      match nets s !! k with
      | None => Some (set_main (R_join_par 0 pend) s)
      | Some pc =>
          if net_finished pc
          then Some (set_main (R_join_net (S k) pend) (emit (ObsJoinNet k) s))
          else None
      end
  | R_join_par k pend =>
      match parsers s !! k with
      | None => Some (set_main (R_drain pend) s)
      | Some pc =>
          if parser_finished pc
          then Some (set_main (R_join_par (S k) pend) (emit (ObsJoinParser k) s))
          else None
      end
  | R_drain pend =>
      match get (_fatal_errors c) with
      | Some (ex, q) => Some (set_main (R_raised ex) (upd_crawler (with_fatal_errors q) s))
      | None => Some (set_main (R_hook pend) s)
      end
  | R_hook pend =>
      let s := emit ObsShutdownHook s in
      match pend with
      | Some ex => Some (set_main (R_raised ex) s)
      | None => Some (set_main R_returned s)
      end
  | R_raised _ | R_returned => None
  end.

(** ** The interleaved system *)

(** Who moves next; [LShutdown] is a call of the public [shutdown()] from
    user code. *)
Inductive Label :=
| LGen
| LNet (i : nat) (tr : Result Resp)
| LPar (j : nat)
| LMain
| LShutdown.

#[global] Instance Label_eq_dec : EqDecision Label.
Proof. solve_decision. Defined.

Definition step (cls : CrawlerClass) (l : Label) (s : Sys) : option Sys :=
  match l with
  | LGen => worker_task_generator cls s
  | LNet i tr => worker_network i tr s
  | LPar j => worker_parser j s
  | LMain => run cls s
  | LShutdown => Some (upd_crawler shutdown s)
  end.

(** Run a schedule; [None] as soon as a scheduled thread cannot move. *)
Fixpoint exec (cls : CrawlerClass) (sched : list Label) (s : Sys) : option Sys :=
  match sched with
  | [] => Some s
  | l :: rest => s' ← step cls l s; exec cls rest s'
  end.

(** The states a run can reach from a fresh crawler. *)
Definition reachable (cls : CrawlerClass) (c : Crawler) (pool : gmap ReqId Request)
    (s : Sys) : Prop :=
  ∃ sched, exec cls sched (boot c pool) = Some s.

(** ** Concrete crawlers used in the examples below *)

Definition handler_none : Handler := fun _ _ => HNone.

(** A subclass with one handler, [handler_a], and an endless generator whose
    k-th task is the request object k. *)
Definition seeds (k : nat) : GenEvent := GYield (VReq k).
Definition crawler_a : CrawlerClass :=
  mkClass seeds [("handler_a", Callable handler_none)].

(** The same subclass with a generator that yields request 0 and stops. *)
Definition one_seed (k : nat) : GenEvent :=
  match k with O => GYield (VReq 0%nat) | _ => GStop end.
Definition crawler_one : CrawlerClass :=
  mkClass one_seed [("handler_a", Callable handler_none)].

(** A subclass whose generator yields something that is not a [Request]. *)
Definition crawler_int : CrawlerClass := mkClass (fun _ => GYield (VObj "42")) [].
Definition crawler_pair : CrawlerClass :=
  mkClass (fun _ => GYield (VTuple ["http://x/0"; "a"])) [].

Definition pool_a : gmap ReqId Request :=
  list_to_map
    [(0%nat, mkRequest "http://x/0" "a" 0); (1%nat, mkRequest "http://x/1" "a" 0);
     (2%nat, mkRequest "http://x/2" "a" 0); (3%nat, mkRequest "http://x/3" "a" 0)].

(** A request whose tag has no handler. *)
Definition pool_untagged : gmap ReqId Request :=
  {[ 0%nat := mkRequest "http://x/0" "zzz" 0 ]}.

(** One network thread, two cores (hence one parser). *)
Definition small (network_try_limit : Z) : Crawler := __init__ 2 1 network_try_limit 10.

Definition io_error : Exn := OtherError "IOError" "disk full".
Definition value_error : Exn := OtherError "ValueError" "bad header".
Definition timed_out : Exn := NetworkError "timed out".

(** The transport outcome of a step that does not call the transport. *)
Definition idle : Result Resp := Ok 0%nat.

(** The orchestrator reads both queue sizes (lines 206-207) while the only
    network worker is still fetching; the fetch then succeeds, the worker
    puts the pair on the response queue and clears its flag; the
    orchestrator reads the flag (lines 208-211) and disallows work. *)
Definition sched_stale_check : list Label :=
  [LMain; LGen; LGen; LGen; LNet 0 idle; LNet 0 idle; LPar 0; LPar 0; LPar 0]
  ++ replicate 10 LMain
  ++ [LNet 0 (Ok 7%nat); LNet 0 idle; LNet 0 idle]
  ++ replicate 3 LMain.

(** Two fetches fail with errors that are not [NetworkError] before the
    orchestrator polls the fatal channel. *)
Definition sched_two_errors : list Label :=
  [LMain; LGen; LGen;
   LNet 0 idle; LNet 0 idle; LNet 0 (Raise io_error); LNet 0 idle; LNet 0 idle;
   LGen; LGen;
   LNet 0 idle; LNet 0 idle; LNet 0 (Raise value_error); LNet 0 idle; LNet 0 idle]
  ++ replicate 6 LMain
  ++ [LNet 0 idle; LPar 0; LGen; LGen; LGen]
  ++ replicate 5 LMain.

(** One fetch fails with an error that is not [NetworkError]; the run tears
    down and raises it. *)
Definition sched_one_error : list Label :=
  [LMain; LGen; LGen;
   LNet 0 idle; LNet 0 idle; LNet 0 (Raise io_error); LNet 0 idle; LNet 0 idle]
  ++ replicate 6 LMain
  ++ [LNet 0 idle; LPar 0]
  ++ replicate 6 LMain.

(** A successful fetch of a request whose tag has no handler reaches the
    parser. *)
Definition sched_untagged : list Label :=
  [LMain; LGen; LGen; LNet 0 idle; LNet 0 idle; LNet 0 (Ok 5%nat); LNet 0 idle;
   LNet 0 idle; LPar 0; LPar 0].

(** The parser times out on the empty response queue right after start. *)
Definition sched_idle_parser : list Label := [LMain; LPar 0; LPar 0; LPar 0].

(** One transient failure of request 0. *)
Definition sched_one_failure : list Label :=
  [LMain; LGen; LGen; LNet 0 idle; LNet 0 idle; LNet 0 (Raise timed_out); LNet 0 idle;
   LNet 0 idle].

(** [shutdown()] is called before the generator thread's first pull. *)
Definition sched_shutdown_first : list Label := [LMain; LShutdown; LGen].


(** The parser has timed out on the empty response queue and waits for
    the resume event when a fetch fails with an error that is not a
    [NetworkError]; [run] raises it and tears down. *)
Definition sched_hang : list Label :=
  [LMain; LPar 0; LPar 0; LPar 0; LGen; LGen;
   LNet 0 idle; LNet 0 idle; LNet 0 (Raise io_error); LNet 0 idle; LNet 0 idle]
  ++ replicate 6 LMain
  ++ [LNet 0 idle; LGen; LGen; LGen]
  ++ replicate 2 LMain.


(** Counting observations. *)
Definition is_fetch_of (r : ReqId) (o : Obs) : bool :=
  match o with ObsFetch _ r' _ => bool_decide (r' = r) | _ => false end.
Definition is_rejection_of (r : ReqId) (o : Obs) : bool :=
  match o with ObsRejected r' _ _ => bool_decide (r' = r) | _ => false end.
Definition is_task_put_of (x : option ReqId) (o : Obs) : bool :=
  match o with ObsTaskPut x' => bool_decide (x' = x) | _ => false end.
Definition is_result_put_of (x : option (ReqId * Resp)) (o : Obs) : bool :=
  match o with ObsResultPut x' => bool_decide (x' = x) | _ => false end.
Definition is_shutdown_hook (o : Obs) : bool :=
  match o with ObsShutdownHook => true | _ => false end.

Definition count (p : Obs → bool) (l : list Obs) : nat := length (List.filter p l).

Definition fetches (r : ReqId) (s : Sys) : nat := count (is_fetch_of r) (log s).
Definition rejections (r : ReqId) (s : Sys) : nat := count (is_rejection_of r) (log s).
Definition task_puts (x : option ReqId) (s : Sys) : nat := count (is_task_put_of x) (log s).
Definition result_puts (x : option (ReqId * Resp)) (s : Sys) : nat :=
  count (is_result_put_of x) (log s).
Definition shutdown_hook_calls (s : Sys) : nat := count is_shutdown_hook (log s).

(** [run] has returned or raised. *)
Definition run_over (pc : RunPC) : bool :=
  match pc with R_raised _ | R_returned => true | _ => false end.

(** ** State predicates *)

(** The exception in flight on the thread that called [run]. *)
Definition pending (pc : RunPC) : option Exn :=
  match pc with
  | R_sent_net _ p | R_sent_par _ p | R_join_net _ p | R_join_par _ p
  | R_drain p | R_hook p => p
  | R_raised ex => Some ex
  | _ => None
  end.

(** Shape of the thread pools: empty before [run] starts them, of the
    configured sizes afterwards. *)
Definition pools_ok (s : Sys) : Prop :=
  let cfg := config (crawler s) in
  maxsize (_fatal_errors (crawler s)) = 0
  ∧ maxsize (_request_queue (crawler s)) = num_network_threads cfg
  ∧ maxsize (_response_queue (crawler s)) = num_parsers cfg
  ∧ match main s with
    | R_start =>
        nets s = [] ∧ parsers s = [] ∧ log s = [] ∧ gen s = G_new
        ∧ _net_threads (crawler s) = [] ∧ _parser_threads (crawler s) = []
        ∧ items (_fatal_errors (crawler s)) = []
    | _ =>
        length (nets s) = Z.to_nat (num_network_threads cfg)
        ∧ length (_net_threads (crawler s)) = Z.to_nat (num_network_threads cfg)
        ∧ length (parsers s) = Z.to_nat (num_parsers cfg)
        ∧ length (_parser_threads (crawler s)) = Z.to_nat (num_parsers cfg)
    end.

Definition all_nets_done (s : Sys) : Prop :=
  ∀ i pc, nets s !! i = Some pc → pc = N_done.
Definition all_parsers_finished (s : Sys) : Prop :=
  ∀ j pc, parsers s !! j = Some pc → parser_finished pc = true.

(** Where the teardown of [run] (the [finally] block) stands. *)
Definition teardown_ok (s : Sys) : Prop :=
  let N := Z.to_nat (num_network_threads (config (crawler s))) in
  let M := Z.to_nat (num_parsers (config (crawler s))) in
  (∀ ex, ex ∈ items (_fatal_errors (crawler s)) → ObsFatalPut ex ∈ log s)
  ∧ (∀ ex, pending (main s) = Some ex → ObsFatalPut ex ∈ log s)
  ∧ match main s with
    | R_sent_net k _ =>
        task_puts None s = k ∧ (k ≤ N)%nat ∧ result_puts None s = 0%nat
        ∧ shutdown_hook_calls s = 0%nat
    | R_sent_par k _ =>
        task_puts None s = N ∧ result_puts None s = k ∧ (k ≤ M)%nat
        ∧ shutdown_hook_calls s = 0%nat
    | R_join_net k _ =>
        task_puts None s = N ∧ result_puts None s = M
        ∧ shutdown_hook_calls s = 0%nat
        ∧ ∀ i pc, (i < k)%nat → nets s !! i = Some pc → pc = N_done
    | R_join_par k _ =>
        task_puts None s = N ∧ result_puts None s = M
        ∧ shutdown_hook_calls s = 0%nat
        ∧ all_nets_done s
        ∧ ∀ j pc, (j < k)%nat → parsers s !! j = Some pc → parser_finished pc = true
    | R_drain _ | R_hook _ =>
        task_puts None s = N ∧ result_puts None s = M
        ∧ shutdown_hook_calls s = 0%nat
        ∧ all_nets_done s ∧ all_parsers_finished s
    | R_raised _ =>
        task_puts None s = N ∧ result_puts None s = M
        ∧ (shutdown_hook_calls s ≤ 1)%nat
        ∧ all_nets_done s ∧ all_parsers_finished s
    | R_returned =>
        task_puts None s = N ∧ result_puts None s = M
        ∧ shutdown_hook_calls s = 1%nat
        ∧ all_nets_done s ∧ all_parsers_finished s
    | _ =>
        task_puts None s = 0%nat ∧ result_puts None s = 0%nat
        ∧ shutdown_hook_calls s = 0%nat
    end.


(** Successful fetches of [r] that returned [resp]. *)
Definition is_fetch_ok (r : ReqId) (resp : Resp) (o : Obs) : bool :=
  match o with
  | ObsFetch _ r' (Ok resp') => bool_decide (r' = r ∧ resp' = resp)
  | _ => false
  end.
Definition successful_fetches (r : ReqId) (resp : Resp) (s : Sys) : nat :=
  count (is_fetch_ok r resp) (log s).

(** Network workers standing at line 103 with the pair [(r, resp)]. *)
Definition holds_result (r : ReqId) (resp : Resp) (pc : NetPC) : bool :=
  match pc with
  | N_result r' resp' => bool_decide (r' = r ∧ resp' = resp)
  | _ => false
  end.
Definition about_to_put (r : ReqId) (resp : Resp) (s : Sys) : nat :=
  length (List.filter (holds_result r resp) (nets s)).

(** Every pair put on the response queue, or about to be, is matched by
    its own successful fetch, and the pairs in the queue or in a parser's
    hands were put there. *)
Definition results_ok (s : Sys) : Prop :=
  ∀ r resp,
    (result_puts (Some (r, resp)) s + about_to_put r resp s
     = successful_fetches r resp s)%nat
    ∧ (Some (r, resp) ∈ items (_response_queue (crawler s)) →
       (0 < result_puts (Some (r, resp)) s)%nat)
    ∧ (∀ j, parsers s !! j = Some (P_dispatch r resp) →
       (0 < result_puts (Some (r, resp)) s)%nat).

(** The state a schedule leads to (the start state if the schedule cannot
    be run). *)
Definition after (cls : CrawlerClass) (sched : list Label) (s : Sys) : Sys :=
  default s (exec cls sched s).

(** The steps of [worker_network] between a failed fetch and line 105. *)
Definition on_error_path (pc : NetPC) : bool :=
  match pc with
  | N_incr _ _ | N_store _ _ _ | N_cmp _ _ | N_reject _ _ | N_requeue _
  | N_fatal _ => true
  | _ => false
  end.

(** ** Following one request object *)


(** The places where the object [r] can be waiting for a fetch or be in a
    network worker's hands. *)
Definition is_request (r : ReqId) (x : option ReqId) : bool := bool_decide (x = Some r).
Definition queued (r : ReqId) (s : Sys) : nat :=
  length (List.filter (is_request r) (items (_request_queue (crawler s)))).

Definition holds_request (r : ReqId) (pc : NetPC) : bool :=
  match pc with
  | N_active r' | N_fetch r' | N_incr r' _ | N_store r' _ _ | N_cmp r' _
  | N_reject r' _
  | N_requeue r' | N_result r' _ => bool_decide (r' = r)
  | _ => false
  end.




(** Every fetch of [r] so far raised a [NetworkError]. *)
Definition fails_only (r : ReqId) (s : Sys) : Prop :=
  ∀ i tr, ObsFetch i r tr ∈ log s → ∃ ex, tr = Raise ex ∧ is_NetworkError ex = true.










(** ** The fatal channel *)

(** The errors put on the fatal channel so far, oldest first. *)
Definition fatal_put_of (o : Obs) : option Exn :=
  match o with ObsFatalPut ex => Some ex | _ => None end.
Definition fatal_history (s : Sys) : list Exn :=
  reverse (omap fatal_put_of (log s)).

(** Only [run] takes errors from the fatal channel, and it takes them in
    the order they were put: the channel holds the history less what [run]
    has taken, which is nothing while the main loop runs, the polled error
    [pending] during the teardown, and at the end either the one error
    raised after the hook or what was raised by line 242 without the
    hook. *)
Definition fatal_ok (s : Sys) : Prop :=
  let h := fatal_history s in
  let q := items (_fatal_errors (crawler s)) in
  match main s with
  | R_raised ex =>
      (h = ex :: q ∧ shutdown_hook_calls s = 1%nat)
      ∨ (∃ p, h = option_list p ++ ex :: q ∧ shutdown_hook_calls s = 0%nat)
  | R_returned => h = q
  | pc => h = option_list (pending pc) ++ q
  end.

(** ** A request object that enters the engine once *)

(** What is known where a network worker stands, of a request object [r]
    that is in one place at a time: the count a worker is about to write
    back (line 92) is the current count [c], and the worker about to
    reject [r] (lines 94-97) read a count above the limit [L]. *)
Definition lone_stage (r : ReqId) (L c : Z) (pc : NetPC) : Prop :=
  match pc with
  | N_store r' _ v => r' = r → v = c
  | N_reject r' _ => r' = r → L < c
  | _ => True
  end.


(** ** Calls from user code *)

(** [Crawler.add_task] (lines 78-79): one call from user code; like every
    [put] it blocks ([None]) while the request queue is full.  The runs of
    [reachable] contain no such call. *)
Definition add_task (task : option ReqId) (s : Sys) : option Sys :=
  request_put task s.

(** Successive calls of [add_task] from one thread. *)
Fixpoint add_tasks (tasks : list (option ReqId)) (s : Sys) : option Sys :=
  match tasks with
  | [] => Some s
  | task :: rest => s' ← add_task task s; add_tasks rest s'
  end.

(** ** Runs with calls of [add_task] *)

(** One move of a run in which user code also calls [add_task]: a step of
    a thread, or a call [add_task(task)]. *)
Inductive Move :=
| MStep (l : Label)
| MAdd (task : option ReqId).

#[global] Instance Move_eq_dec : EqDecision Move.
Proof. solve_decision. Defined.

Definition move (cls : CrawlerClass) (m : Move) (s : Sys) : option Sys :=
  match m with
  | MStep l => step cls l s
  | MAdd task => add_task task s
  end.

Fixpoint play (cls : CrawlerClass) (ms : list Move) (s : Sys) : option Sys :=
  match ms with
  | [] => Some s
  | m :: rest => s' ← move cls m s; play cls rest s'
  end.

(** ** More state predicates *)

(** A bounded queue holds at most [maxsize] items. *)
Definition within_capacity {A} (q : Queue A) : Prop :=
  0 < maxsize q → qsize q ≤ maxsize q.
Definition queues_within (s : Sys) : Prop :=
  within_capacity (_request_queue (crawler s))
  ∧ within_capacity (_response_queue (crawler s)).

(** The thread that called [run] is past the [while] loop of line 180. *)
Definition left_loop (pc : RunPC) : bool :=
  match pc with
  | R_sent_net _ _ | R_sent_par _ _ | R_join_net _ _ | R_join_par _ _
  | R_drain _ | R_hook _ | R_raised _ | R_returned => true
  | _ => false
  end.

(** Past the loop with no exception in flight, work has been disallowed. *)
Definition loop_exit_ok (s : Sys) : Prop :=
  left_loop (main s) = true →
  match main s with
  | R_raised _ => True
  | pc => pending pc = None → _work_allowed (crawler s) = false
  end.

(** A network worker is between line 86 (done) and line 105 (to do). *)
Definition in_iteration (pc : NetPC) : bool :=
  match pc with
  | N_get | N_active _ | N_done => false
  | _ => true
  end.

(** A parser is between line 126 (done) and line 128 (to do). *)
Definition marked_paused (pc : ParPC) : bool :=
  match pc with P_wait | P_unpause => true | _ => false end.

(** The dictionary entry that [start_threads] made for a thread, as the
    thread standing at [pc] has left it. *)
Definition net_entry (pc : NetPC) : WorkerRec :=
  {| active := in_iteration pc; paused := false |}.
Definition parser_entry (pc : ParPC) : WorkerRec :=
  {| active := false; paused := marked_paused pc |}.

Definition flags_ok (s : Sys) : Prop :=
  _net_threads (crawler s) = net_entry <$> nets s
  ∧ _parser_threads (crawler s) = parser_entry <$> parsers s.

(** Where [run] stands while [_pause_event] (lines 193-218) and
    [_resume_event] (lines 219-226) are set. *)
Definition pause_requested (pc : RunPC) : bool :=
  match pc with
  | R_wait_paused _ | R_c1 | R_c2 | R_c3 _ | R_disallow | R_unpause => true
  | _ => false
  end.
Definition resume_signalled (pc : RunPC) : bool :=
  match pc with R_wait_unpaused _ | R_resume_clear => true | _ => false end.

Definition events_ok (s : Sys) : Prop :=
  is_set (_pause_event (crawler s)) = pause_requested (main s)
  ∧ is_set (_resume_event (crawler s)) = resume_signalled (main s).

(** Network workers that have taken [r] from the queue (line 83) and have
    not called the transport yet (line 90). *)
Definition awaits_fetch (r : ReqId) (pc : NetPC) : bool :=
  match pc with
  | N_active r' | N_fetch r' => bool_decide (r' = r)
  | _ => false
  end.
Definition taken (r : ReqId) (s : Sys) : nat :=
  length (List.filter (awaits_fetch r) (nets s)).

Definition fetch_balance (s : Sys) : Prop :=
  ∀ r, task_puts (Some r) s = (queued r s + taken r s + fetches r s)%nat.




(** Fetches of [r] that raised a [NetworkError], and workers that caught
    one and have not written the count back yet (line 92). *)
Definition is_transient_failure (r : ReqId) (o : Obs) : bool :=
  match o with
  | ObsFetch _ r' (Raise ex) => bool_decide (r' = r) && is_NetworkError ex
  | _ => false
  end.
Definition transient_failures (r : ReqId) (s : Sys) : nat :=
  count (is_transient_failure r) (log s).

Definition about_to_count (r : ReqId) (pc : NetPC) : bool :=
  match pc with
  | N_incr r' _ | N_store r' _ _ => bool_decide (r' = r)
  | _ => false
  end.
Definition uncounted (r : ReqId) (s : Sys) : nat :=
  length (List.filter (about_to_count r) (nets s)).

(** A worker about to write back the count [v + 1] of [r] read a [v]
    between [lo] and [hi]. *)
Definition store_bound (r : ReqId) (lo hi : Z) (pc : NetPC) : Prop :=
  match pc with
  | N_store r' _ v => r' = r → lo ≤ v ≤ hi
  | _ => True
  end.

(** The request objects are those of [pool]; the engine changes nothing of
    them but the try count, which never falls below its first value and
    never counts more than the [NetworkError]s caught and written back. *)
Definition try_bounds (pool : gmap ReqId Request) (s : Sys) : Prop :=
  ∀ r, match pool !! r, heap s !! r with
       | Some rq0, Some rq =>
           let hi := network_try_count rq0 + Z.of_nat (transient_failures r s)
                     - Z.of_nat (uncounted r s) in
           url rq = url rq0 ∧ tag rq = tag rq0
           ∧ network_try_count rq0 ≤ network_try_count rq ≤ hi
           ∧ Forall (store_bound r (network_try_count rq0) hi) (nets s)
       | None, None => True
       | _, _ => False
       end.

(** The task generator yields [r], or some handler does. *)
Definition handed_out (cls : CrawlerClass) (r : ReqId) : Prop :=
  (∃ k, task_generator cls k = GYield (VReq r))
  ∨ (∃ key h r' resp ys fin,
       (key, Callable h) ∈ members cls ∧ h r' resp = HIter ys fin ∧ VReq r ∈ ys).

(** ... or user code hands it in with [add_task]. *)
Definition known_request (cls : CrawlerClass) (ms : list Move) (r : ReqId) : Prop :=
  handed_out cls r ∨ MAdd (Some r) ∈ ms.

Definition parser_yields (P : ReqId → Prop) (pc : ParPC) : Prop :=
  match pc with
  | P_iter ys _ => ∀ r, VReq r ∈ ys → P r
  | P_put r ys _ => P r ∧ ∀ r', VReq r' ∈ ys → P r'
  | _ => True
  end.

(** Whatever request is in the request queue, in a thread's hands or in the
    log of fetches is one of those that [P] allows. *)
Definition provenance_ok (P : ReqId → Prop) (cls : CrawlerClass) (s : Sys) : Prop :=
  (∀ t h, _handlers (crawler s) !! t = Some h → ∃ key, (key, Callable h) ∈ members cls)
  ∧ (∀ r, Some r ∈ items (_request_queue (crawler s)) → P r)
  ∧ (∀ k r, gen s = G_put k r → P r)
  ∧ (∀ i pc r, nets s !! i = Some pc → holds_request r pc = true → P r)
  ∧ (∀ j pc, parsers s !! j = Some pc → parser_yields P pc)
  ∧ (∀ i r tr, ObsFetch i r tr ∈ log s → P r).

(** A dead parser died of the [KeyError] of line 133, on the tag of one of
    the requests. *)
Definition died_of_unknown_tag (cls : CrawlerClass) (pool : gmap ReqId Request)
    (pc : ParPC) : Prop :=
  match pc with
  | P_crashed ex =>
      ∃ r rq, pool !! r = Some rq ∧ ex = KeyError (tag rq)
              ∧ register_handlers (members cls) !! tag rq = None
  | _ => True
  end.

Definition crash_ok (cls : CrawlerClass) (pool : gmap ReqId Request) (s : Sys) : Prop :=
  (main s ≠ R_start → _handlers (crawler s) = register_handlers (members cls))
  ∧ ∀ j pc, parsers s !! j = Some pc → died_of_unknown_tag cls pool pc.

(** The transport has never been called. *)
Definition no_fetch (s : Sys) : Prop := ∀ i r tr, ObsFetch i r tr ∉ log s.

(** Every network worker stands at line 99, about to put its request back,
    and the request queue is full. *)
Definition requeue_deadlock (s : Sys) : Prop :=
  full (_request_queue (crawler s)) = true
  ∧ nets s ≠ []
  ∧ ∀ i pc, nets s !! i = Some pc → ∃ r, pc = N_requeue r.

(** ** Teardown with cooperative workers *)

(** The parts of a state the teardown depends on: [s] agrees with [s0] on
    the configuration, the queue bounds and the fatal channel, and has the
    given program counters and queue contents. *)
Definition shape (s0 : Sys) (pc : RunPC) (rq : list (option ReqId))
    (pq : list (option (ReqId * Resp))) (ns : list NetPC) (ps : list ParPC)
    (s : Sys) : Prop :=
  main s = pc
  ∧ items (_request_queue (crawler s)) = rq
  ∧ items (_response_queue (crawler s)) = pq
  ∧ nets s = ns ∧ parsers s = ps
  ∧ config (crawler s) = config (crawler s0)
  ∧ maxsize (_request_queue (crawler s)) = maxsize (_request_queue (crawler s0))
  ∧ maxsize (_response_queue (crawler s)) = maxsize (_response_queue (crawler s0))
  ∧ _fatal_errors (crawler s) = _fatal_errors (crawler s0).

(** The schedule in which the network threads [k], [k+1], ... take one
    step each, and the same for parsers. *)
Definition each_net (k n : nat) : list Label := (λ i, LNet i idle) <$> seq k n.
Definition each_parser (k n : nat) : list Label := LPar <$> seq k n.

(** Both queues are empty and every worker of both pools waits in [get]. *)
Definition idle_pools (s : Sys) : Prop :=
  items (_request_queue (crawler s)) = []
  ∧ items (_response_queue (crawler s)) = []
  ∧ nets s = replicate (length (nets s)) N_get
  ∧ parsers s = replicate (length (parsers s)) P_get.

(** The [finally] block with cooperative workers: the sentinels, one [get]
    per worker, the joins. *)
Definition teardown_schedule (n m : nat) : list Label :=
  replicate (S n) LMain ++ replicate (S m) LMain
  ++ each_net 0 n ++ each_parser 0 m
  ++ replicate (S n) LMain ++ replicate (S m) LMain.

(** What [run] does at the end of the teardown: the error left on the
    fatal channel, else the error [pend] of the main loop, else return. *)
Definition teardown_outcome (fatal : list Exn) (pend : option Exn) : RunPC :=
  match fatal, pend with
  | ex :: _, _ => R_raised ex
  | [], Some ex => R_raised ex
  | [], None => R_returned
  end.

(** ** Shutdown at quiescence *)

(** The parts of a state that the quiescence check and the parsers' pause
    change are the arguments; on what else the threads read, [s] agrees
    with [s0]. *)
Definition calm (s0 : Sys) (pc : RunPC) (w res : bool) (ps : list ParPC)
    (s : Sys) : Prop :=
  main s = pc ∧ _work_allowed (crawler s) = w
  ∧ is_set (_resume_event (crawler s)) = res
  ∧ parsers s = ps ∧ _parser_threads (crawler s) = parser_entry <$> ps
  ∧ gen s = gen s0 ∧ nets s = nets s0
  ∧ _net_threads (crawler s) = _net_threads (crawler s0)
  ∧ _request_queue (crawler s) = _request_queue (crawler s0)
  ∧ _response_queue (crawler s) = _response_queue (crawler s0)
  ∧ _fatal_errors (crawler s) = _fatal_errors (crawler s0)
  ∧ config (crawler s) = config (crawler s0).

(** Every parser from [k] on times out on the empty queue and pauses
    (lines 123-127); every parser from [k] on wakes up (lines 127-128). *)
Definition pause_each (k n : nat) : list Label :=
  mjoin ((λ j, [LPar j; LPar j; LPar j]) <$> seq k n).
Definition wake_each (k n : nat) : list Label :=
  mjoin ((λ j, [LPar j; LPar j]) <$> seq k n).

(** The quiescence check of lines 180-226 and the exit from the loop, for
    [n] network threads and [m] parsers that cooperate. *)
Definition quiescence_schedule (n m : nat) : list Label :=
  pause_each 0 m ++ replicate 6 LMain ++ replicate (S m) LMain
  ++ replicate 2 LMain ++ replicate (S n) LMain ++ replicate 3 LMain
  ++ wake_each 0 m ++ replicate (S m) LMain ++ replicate 2 LMain.

(** ** More concrete crawlers and runs *)

(** What [dir(self)] may list: a data attribute, the method [handler_]
    (empty tag), a handler, a data attribute with the handler prefix and a
    method without it. *)
Definition handler_fail : Handler := fun _ _ => HRaise value_error.
Definition members_mixed : list (string * Attr) :=
  [("config", NotCallable); ("handler_", Callable handler_fail);
   ("handler_page", Callable handler_none); ("handler_stats", NotCallable);
   ("run", Callable handler_none)].

(** A subclass that overrides nothing. *)
Definition crawler_base : CrawlerClass := mkClass base_task_generator [].

(** User code adds request 3 before [run]; the only network worker takes
    it and calls the transport. *)
Definition moves_added_task : list Move :=
  [MAdd (Some 3%nat); MStep LMain; MStep (LNet 0 idle); MStep (LNet 0 idle);
   MStep (LNet 0 (Ok 9%nat))].


(** Two workers hold the same request object, put twice by [add_task], and
    both fetches fail: both read the count 0 before either writes. *)
Definition moves_shared_request : list Move :=
  [MAdd (Some 0%nat); MAdd (Some 0%nat); MStep LMain]
  ++ (MStep <$> [LNet 0 idle; LNet 1 idle; LNet 0 idle; LNet 1 idle;
                 LNet 0 (Raise timed_out); LNet 1 (Raise timed_out);
                 LNet 0 idle; LNet 1 idle; LNet 0 idle; LNet 1 idle]).

(** A crawler without network threads. *)
Definition no_threads : Crawler := __init__ 2 0 10 10.

(** [shutdown()] is called right after the threads were started; the
    orchestrator then leaves its loop. *)
Definition sched_shutdown : list Label := [LMain; LShutdown; LMain].

(** The only network worker holds request 0 and the generator has refilled
    the one-slot request queue with request 1 when the fetch of request 0
    fails: the worker stands at line 99 before a full queue. *)
Definition sched_requeue_full : list Label :=
  [LMain; LGen; LGen; LNet 0 idle; LGen; LGen;
   LNet 0 idle; LNet 0 (Raise timed_out); LNet 0 idle; LNet 0 idle; LNet 0 idle].
(** * Properties *)

(** ** Queues *)

Lemma put_blocks_iff {A} (x : A) (q : Queue A) :
  put x q = None ↔ 0 < maxsize q ≤ qsize q.
Proof.
  unfold put, full.
  destruct (0 <? maxsize q) eqn:Hpos, (maxsize q <=? qsize q) eqn:Hle; simpl;
    split; intros H; try done; lia.
Qed.

Lemma put_items {A} (x : A) (q q' : Queue A) :
  put x q = Some q' → items q' = items q ++ [x] ∧ maxsize q' = maxsize q.
Proof. unfold put. case_match; intros; by simplify_eq. Qed.

Lemma get_items {A} (x : A) (q q' : Queue A) :
  get q = Some (x, q') → items q = x :: items q' ∧ maxsize q' = maxsize q.
Proof. unfold get. case_match; intros; by simplify_eq. Qed.

Lemma put_unbounded {A} (x : A) (q : Queue A) :
  maxsize q ≤ 0 → put x q = Some {| maxsize := maxsize q; items := items q ++ [x] |}.
Proof.
  intros H. unfold put, full.
  destruct (0 <? maxsize q) eqn:Hpos; [lia | done].
Qed.

(** C9. At construction the request (task) queue gets [maxsize] equal to
    the configured number of network threads and the response (result)
    queue gets [maxsize] equal to the number of parsers, which is
    [max(1, cpu_count // 2)]; both start empty, and a [put] blocks exactly
    when a positive [maxsize] is reached. *)
Theorem queues_sized_from_config (cpu n lim tlim : Z) :
  let c := __init__ cpu n lim tlim in
  num_network_threads (config c) = n
  ∧ maxsize (_request_queue c) = num_network_threads (config c)
  ∧ num_parsers (config c) = Z.max 1 (cpu / 2)
  ∧ maxsize (_response_queue c) = num_parsers (config c)
  ∧ items (_request_queue c) = [] ∧ items (_response_queue c) = []
  ∧ (∀ x, put x (_request_queue c) = None
          ↔ 0 < n ≤ qsize (_request_queue c))
  ∧ (∀ x, put x (_response_queue c) = None
          ↔ Z.max 1 (cpu / 2) ≤ qsize (_response_queue c)).
Proof.
  simpl. split_and!; try done; intros x; rewrite put_blocks_iff; simpl; lia.
Qed.

(** ** Reasoning about steps *)

Ltac unfold_step H :=
  unfold step, worker_task_generator, worker_network, worker_parser, run,
    request_put, response_put, fatal_put in H.

Ltac step_cases H :=
  unfold_step H;
  repeat (simplify_option_eq; try case_match); simplify_option_eq.

Lemma exec_app cls l1 l2 s :
  exec cls (l1 ++ l2) s = exec cls l1 s ≫= exec cls l2.
Proof.
  revert s. induction l1 as [|l l1 IH]; intros s; simpl; [done|].
  destruct (step cls l s); simpl; [apply IH | done].
Qed.

Lemma exec_invariant cls (P : Sys → Prop) :
  (∀ l s s', P s → step cls l s = Some s' → P s') →
  ∀ sched s s', P s → exec cls sched s = Some s' → P s'.
Proof.
  intros Hstep sched. induction sched as [|l sched IH]; intros s s' HP Hex; simpl in Hex.
  - by simplify_eq.
  - destruct (step cls l s) as [s1|] eqn:Hs; simpl in Hex; [|done].
    eapply IH; [|done]. by eapply Hstep.
Qed.

Lemma reachable_invariant cls c pool (P : Sys → Prop) :
  P (boot c pool) →
  (∀ l s s', P s → step cls l s = Some s' → P s') →
  ∀ s, reachable cls c pool s → P s.
Proof. intros H0 Hstep s [sched Hex]. by eapply exec_invariant. Qed.

Lemma reachable_step cls c pool l s s' :
  reachable cls c pool s → step cls l s = Some s' → reachable cls c pool s'.
Proof.
  intros [sched Hex] Hs. exists (sched ++ [l]).
  rewrite exec_app, Hex. simpl. by rewrite Hs.
Qed.

(** Threads other than the caller of [run] leave its program counter alone. *)
Lemma step_main_other cls l s s' :
  step cls l s = Some s' → l ≠ LMain → main s' = main s.
Proof. intros H Hl. destruct l; try done; step_cases H; done. Qed.

(** The log only grows, by at most one observation per step. *)
Lemma step_log cls l s s' :
  step cls l s = Some s' → log s' = log s ∨ ∃ o, log s' = o :: log s.
Proof. intros H. destruct l; step_cases H; eauto. Qed.

Lemma step_log_elem cls l s s' o :
  step cls l s = Some s' → o ∈ log s → o ∈ log s'.
Proof.
  intros H Ho. destruct (step_log _ _ _ _ H) as [->|[o' ->]]; [done|].
  by apply elem_of_cons; right.
Qed.

(** A finished thread stays finished. *)
Ltac insert_other :=
  match goal with
  | |- <[?j := _]> _ !! ?i = _ =>
      destruct (decide (i = j)) as [->|];
      [congruence | by rewrite list_lookup_insert_ne]
  end.

Lemma net_done_stable cls l s s' i :
  step cls l s = Some s' → nets s !! i = Some N_done → nets s' !! i = Some N_done.
Proof.
  intros H Hi. destruct l; step_cases H; try done; simpl; try insert_other.
  by apply lookup_app_l_Some.
Qed.

Lemma parser_finished_stable cls l s s' j pc :
  step cls l s = Some s' → parsers s !! j = Some pc → parser_finished pc = true →
  parsers s' !! j = Some pc.
Proof.
  intros H Hj Hpc. destruct l; step_cases H; try done; simpl;
    try (by apply lookup_app_l_Some);
    match goal with
    | |- <[?j' := _]> _ !! ?j = _ =>
        destruct (decide (j = j')) as [->|];
        [simplify_eq; done | by rewrite list_lookup_insert_ne]
    end.
Qed.

Lemma step_nets_dom cls l s s' i :
  step cls l s = Some s' → main s ≠ R_start →
  is_Some (nets s' !! i) → is_Some (nets s !! i).
Proof.
  intros H Hm. destruct l; step_cases H; try done; simpl;
    rewrite !lookup_lt_is_Some, ?length_insert; done.
Qed.

Lemma step_parsers_dom cls l s s' j :
  step cls l s = Some s' → main s ≠ R_start →
  is_Some (parsers s' !! j) → is_Some (parsers s !! j).
Proof.
  intros H Hm. destruct l; step_cases H; try done; simpl;
    rewrite !lookup_lt_is_Some, ?length_insert; done.
Qed.

Lemma all_nets_done_stable cls l s s' :
  step cls l s = Some s' → main s ≠ R_start → all_nets_done s → all_nets_done s'.
Proof.
  intros H Hm Hall i pc Hi.
  destruct (step_nets_dom _ _ _ _ i H Hm) as [pc0 Hpc0]; [by eexists|].
  pose proof (Hall _ _ Hpc0) as ->.
  pose proof (net_done_stable _ _ _ _ _ H Hpc0). congruence.
Qed.

Lemma all_parsers_finished_stable cls l s s' :
  step cls l s = Some s' → main s ≠ R_start →
  all_parsers_finished s → all_parsers_finished s'.
Proof.
  intros H Hm Hall j pc Hj.
  destruct (step_parsers_dom _ _ _ _ j H Hm) as [pc0 Hpc0]; [by eexists|].
  pose proof (Hall _ _ Hpc0) as Hfin.
  pose proof (parser_finished_stable _ _ _ _ _ _ H Hpc0 Hfin). congruence.
Qed.

(** Only the thread that called [run] puts sentinels and calls the hook. *)
Lemma step_other_counts cls l s s' :
  step cls l s = Some s' → l ≠ LMain →
  task_puts None s' = task_puts None s
  ∧ result_puts None s' = result_puts None s
  ∧ shutdown_hook_calls s' = shutdown_hook_calls s.
Proof. intros H Hl. destruct l; try done; step_cases H; done. Qed.

Lemma pools_ok_boot cpu n lim tlim pool :
  pools_ok (boot (__init__ cpu n lim tlim) pool).
Proof. by repeat split. Qed.

Lemma pools_ok_step cls l s s' :
  pools_ok s → step cls l s = Some s' → pools_ok s'.
Proof.
  intros Hp H.
  destruct l; step_cases H;
    repeat match goal with
    | H : put _ _ = Some _ |- _ => apply put_items in H as [? ?]
    | H : get _ = Some _ |- _ => apply get_items in H as [? ?]
    end;
    destruct Hp as (Hf & Hq & Hr & Hm); unfold pools_ok; simpl in *;
    (split; [congruence|split; [congruence|split; [congruence|]]]);
    destruct (main s); destruct_and?; simplify_list_eq;
    rewrite ?length_insert, ?length_alter, ?length_app, ?length_replicate;
    try done; try congruence;
    try match goal with
        | H : ?l = [], H' : ?l !! _ = Some _ |- _ => by rewrite H in H'
        end.
  unfold start_threads.
  repeat match goal with H : _ = [] |- _ => rewrite H; clear H end.
  by rewrite !length_app, !length_replicate.
Qed.

Lemma reachable_pools_ok cls cpu n lim tlim pool s :
  reachable cls (__init__ cpu n lim tlim) pool s → pools_ok s.
Proof.
  apply (reachable_invariant _ _ _ pools_ok); [apply pools_ok_boot|].
  intros. by eapply pools_ok_step.
Qed.

Lemma teardown_ok_boot cpu n lim tlim pool :
  teardown_ok (boot (__init__ cpu n lim tlim) pool).
Proof. split_and!; try done. intros ex Hex. by apply elem_of_nil in Hex. Qed.

Lemma step_config cls l s s' :
  step cls l s = Some s' → config (crawler s') = config (crawler s).
Proof. intros H. destruct l; step_cases H; done. Qed.

(** Whatever is on the fatal channel was put there by some thread. *)
Lemma step_fatal_logged cls l s s' :
  step cls l s = Some s' →
  (∀ ex, ex ∈ items (_fatal_errors (crawler s)) → ObsFatalPut ex ∈ log s) →
  ∀ ex, ex ∈ items (_fatal_errors (crawler s')) → ObsFatalPut ex ∈ log s'.
Proof.
  intros H Hfat ex Hex.
  destruct l; step_cases H; simpl in *;
    repeat match goal with
    | H : put _ _ = Some _ |- _ => apply put_items in H as [? ?]
    | H : get _ = Some _ |- _ => apply get_items in H as [? ?]
    end;
    try (by apply Hfat); try (apply elem_of_cons; right; by apply Hfat).
  all: try (apply Hfat;
            match goal with H : items _ = _ :: _ |- _ => rewrite H end; by right).
  all: match goal with H : _ = _ ++ [_] |- _ => rewrite H in Hex end;
    apply elem_of_app in Hex as [Hex|Hex%list_elem_of_singleton];
    [apply elem_of_cons; right; by apply Hfat | subst; apply elem_of_cons; by left].
Qed.

Lemma teardown_ok_other cls l s s' :
  l ≠ LMain → main s ≠ R_start → teardown_ok s → step cls l s = Some s' → teardown_ok s'.
Proof.
  intros Hl Hstart (Hfat & Hpend & Hpc) H.
  pose proof (step_main_other _ _ _ _ H Hl) as Hmain.
  pose proof (step_other_counts _ _ _ _ H Hl) as (Ht & Hr & Hh).
  pose proof (all_nets_done_stable _ _ _ _ H Hstart) as Hnets.
  pose proof (all_parsers_finished_stable _ _ _ _ H Hstart) as Hpars.
  pose proof (λ i, step_nets_dom _ _ _ _ i H Hstart) as Hdn.
  pose proof (λ j, step_parsers_dom _ _ _ _ j H Hstart) as Hdp.
  pose proof (step_config _ _ _ _ H) as Hcfg.
  unfold teardown_ok. rewrite Hmain, Ht, Hr, Hh, Hcfg. split_and!.
  - by eapply step_fatal_logged.
  - intros ex Hex. eapply step_log_elem; [done|]. by apply Hpend.
  - destruct (main s); try done; destruct_and?; split_and?; eauto.
    + intros i pc Hi Hs'.
      destruct (Hdn i) as [pc0 Hpc0]; [by eexists|].
      assert (pc0 = N_done) as -> by eauto.
      pose proof (net_done_stable _ _ _ _ _ H Hpc0). congruence.
    + intros j pc Hj Hs'.
      destruct (Hdp j) as [pc0 Hpc0]; [by eexists|].
      assert (parser_finished pc0 = true) as Hfin by eauto.
      pose proof (parser_finished_stable _ _ _ _ _ _ H Hpc0 Hfin). congruence.
Qed.

Lemma step_before_start cls l s s' :
  pools_ok s → main s = R_start → step cls l s = Some s' → l = LMain ∨ l = LShutdown.
Proof.
  intros (_ & _ & _ & Hp) Hm H. rewrite Hm in Hp. destruct Hp as (Hn & Hp & _ & Hg & _).
  destruct l; eauto; unfold step, worker_task_generator, worker_network, worker_parser in H;
    rewrite ?Hn, ?Hp, ?Hg in H; done.
Qed.

Lemma teardown_ok_main cls s s' :
  teardown_ok s → run cls s = Some s' → teardown_ok s'.
Proof.
  intros Hinv H. unfold run in H.
  destruct (main s) eqn:Hm; step_cases H;
    repeat match goal with
    | H : put _ _ = Some _ |- _ => apply put_items in H as [? ?]
    | H : get _ = Some _ |- _ => apply get_items in H as [? ?]
    end;
    destruct Hinv as (Hfat & Hpend & Hpc); rewrite Hm in *;
    unfold teardown_ok, task_puts, result_puts, shutdown_hook_calls, count,
      all_nets_done, all_parsers_finished in *;
    simpl in *; destruct_and?.
  all: split; [|split].
  all: try (intros ex Hex; simplify_eq;
            repeat (apply elem_of_cons; right);
            first [ by eauto
                  | apply Hfat;
                    match goal with H : items _ = _ :: _ |- _ => rewrite H end;
                    first [by left | by right] ]).
  all: repeat match goal with
       | H : _ !! _ = None |- _ => apply lookup_ge_None in H
       | H : (_ <? _) = true |- _ => apply Z.ltb_lt in H
       | H : (_ <? _) = false |- _ => apply Z.ltb_ge in H
       end.
  all: split_and?; try done; try lia.
  - intros i pc Hi Hpc. destruct (decide (i = k)) as [->|].
    + simplify_eq.
      match goal with H : net_finished ?x = true |- _ => by destruct x end.
    + match goal with H : ∀ i pc, _ → nets s !! i = Some pc → _ |- _ =>
        eapply (H i); [lia|done] end.
  - intros i pc Hpc. pose proof (lookup_lt_Some _ _ _ Hpc).
    match goal with H : ∀ i pc, _ → nets s !! i = Some pc → _ |- _ =>
      eapply (H i); [lia|done] end.
  - intros j pc Hj Hpc. destruct (decide (j = k)) as [->|].
    + by simplify_eq.
    + match goal with H : ∀ j pc, _ → parsers s !! j = Some pc → _ |- _ =>
        eapply (H j); [lia|done] end.
  - intros j pc Hpc. pose proof (lookup_lt_Some _ _ _ Hpc).
    match goal with H : ∀ j pc, _ → parsers s !! j = Some pc → _ |- _ =>
      eapply (H j); [lia|done] end.
Qed.

Lemma teardown_ok_step cls l s s' :
  pools_ok s → teardown_ok s → step cls l s = Some s' → teardown_ok s'.
Proof.
  intros Hp Hinv H. destruct (decide (l = LMain)) as [->|Hl].
  { by eapply teardown_ok_main. }
  destruct (decide (main s = R_start)) as [Hm|Hm].
  - destruct (step_before_start _ _ _ _ Hp Hm H) as [->| ->]; [done|].
    simpl in H. simplify_eq. done.
  - by eapply teardown_ok_other.
Qed.

Lemma reachable_teardown_ok cls cpu n lim tlim pool s :
  reachable cls (__init__ cpu n lim tlim) pool s → pools_ok s ∧ teardown_ok s.
Proof.
  apply (reachable_invariant _ _ _ (λ s, pools_ok s ∧ teardown_ok s)).
  - split; [apply pools_ok_boot | apply teardown_ok_boot].
  - intros l s1 s2 [Hp Ht] H. split; [by eapply pools_ok_step | by eapply teardown_ok_step].
Qed.

(** ** Teardown of [run] *)

Lemma reachable_config cls cpu n lim tlim pool s :
  reachable cls (__init__ cpu n lim tlim) pool s →
  config (crawler s) = config (__init__ cpu n lim tlim).
Proof.
  apply (reachable_invariant _ _ _
           (λ s, config (crawler s) = config (__init__ cpu n lim tlim))); [done|].
  intros l s1 s2 IH H. by rewrite (step_config _ _ _ _ H).
Qed.

(** The main loop is fail-fast: an error found by the poll of line 182 is
    raised at once, so the thread enters the [finally] block with it. *)
Lemma poll_raises cls s ex q :
  main s = R_poll → get (_fatal_errors (crawler s)) = Some (ex, q) →
  ∃ s', run cls s = Some s' ∧ main s' = R_sent_net 0 (Some ex).
Proof. intros Hm Hg. unfold run. rewrite Hm, Hg. by eexists. Qed.

(** [run] can only be held up where the source blocks: in a [put] of a
    sentinel on a full queue and in a [join] of a thread that has not
    finished. *)
Lemma run_blocked cls s :
  run cls s = None →
  run_over (main s) = true
  ∨ (∃ k p, main s = R_sent_net k p ∧ full (_request_queue (crawler s)) = true)
  ∨ (∃ k p, main s = R_sent_par k p ∧ full (_response_queue (crawler s)) = true)
  ∨ (∃ k p pc, main s = R_join_net k p ∧ nets s !! k = Some pc ∧ net_finished pc = false)
  ∨ (∃ k p pc, main s = R_join_par k p ∧ parsers s !! k = Some pc
               ∧ parser_finished pc = false).
Proof.
  unfold run, request_put, response_put, put. intros H.
  destruct (main s) eqn:Hm; repeat (simplify_option_eq; try case_match);
    eauto 10.
Qed.

(** A thread other than the caller of [run] leaves the fatal channel alone
    or puts one error on it. *)
Lemma step_fatal_other cls l s s' :
  l ≠ LMain → step cls l s = Some s' →
  (items (_fatal_errors (crawler s')) = items (_fatal_errors (crawler s))
   ∧ fatal_history s' = fatal_history s)
  ∨ ∃ ex, items (_fatal_errors (crawler s')) = items (_fatal_errors (crawler s)) ++ [ex]
          ∧ fatal_history s' = fatal_history s ++ [ex].
Proof.
  intros Hl H.
  destruct l; try done; step_cases H; repeat match goal with
    | H : put _ _ = Some _ |- _ => apply put_items in H as [? ?]
    | H : get _ = Some _ |- _ => apply get_items in H as [? ?]
    end;
    unfold fatal_history; simpl; rewrite ?reverse_cons; eauto.
Qed.

Lemma fatal_ok_other cls l s s' :
  l ≠ LMain → fatal_ok s → step cls l s = Some s' → fatal_ok s'.
Proof.
  intros Hl Hinv H.
  pose proof (step_main_other _ _ _ _ H Hl) as Hmain.
  pose proof (step_other_counts _ _ _ _ H Hl) as (_ & _ & Hh).
  unfold fatal_ok in *. rewrite Hmain, Hh.
  destruct (step_fatal_other _ _ _ _ Hl H) as [[-> ->]|(ex & -> & ->)]; [done|].
  destruct (main s);
    try (rewrite Hinv; by rewrite <- ?app_assoc).
  destruct Hinv as [[-> ?]|(p & -> & ?)]; [by left|right; exists p].
  by rewrite <- app_assoc.
Qed.

Lemma fatal_ok_main cls s s' :
  teardown_ok s → fatal_ok s → run cls s = Some s' → fatal_ok s'.
Proof.
  intros (_ & _ & Ht) Hinv H. unfold run in H.
  destruct (main s) eqn:Hm; step_cases H; repeat match goal with
    | H : put _ _ = Some _ |- _ => apply put_items in H as [? ?]
    | H : get _ = Some _ |- _ => apply get_items in H as [? ?]
    end;
    unfold fatal_ok, fatal_history, shutdown_hook_calls, count in *;
    rewrite ?Hm in *; simpl in *;
    repeat match goal with H : items _ = _ |- _ => rewrite H in * end;
    try done.
  - right. exists pend. by destruct_and?.
  - left. destruct_and?. split; [done|]. by f_equal.
Qed.

Lemma fatal_ok_step cls l s s' :
  pools_ok s → teardown_ok s → fatal_ok s → step cls l s = Some s' → fatal_ok s'.
Proof.
  intros Hp Ht Hinv H. destruct (decide (l = LMain)) as [->|Hl].
  - by eapply fatal_ok_main.
  - by eapply fatal_ok_other.
Qed.

Lemma reachable_fatal_ok cls cpu n lim tlim pool s :
  reachable cls (__init__ cpu n lim tlim) pool s → fatal_ok s.
Proof.
  intros Hr.
  cut (pools_ok s ∧ teardown_ok s ∧ fatal_ok s); [by intros (_ & _ & ?)|].
  revert s Hr.
  apply (reachable_invariant _ _ _ (λ s, pools_ok s ∧ teardown_ok s ∧ fatal_ok s)).
  - split_and!; [apply pools_ok_boot|apply teardown_ok_boot|done].
  - intros l s1 s2 (Hp & Ht & Hf) H. split_and!;
      [by eapply pools_ok_step|by eapply teardown_ok_step|by eapply fatal_ok_step].
Qed.

(** C3 (amended).  An error found by the poll of line 182 is raised at
    once: [run] leaves the loop with it in flight, and while the teardown
    runs it is the oldest error ever put on the fatal channel.  When [run]
    has raised or returned, it has put one sentinel per network thread on
    the request queue and one per parser thread on the response queue,
    and every thread of both pools has finished.  What it raises is an
    error that some thread had put on the fatal channel: the error in
    flight, after [shutdown_hook] was called once; or, when the drain of
    line 238 finds an error on the channel (the one put next after the
    polled one), that error in its place, and [shutdown_hook] is not
    called.  When it returns, [shutdown_hook] was called once and no error
    was ever taken from the channel. *)
Theorem run_exits_after_teardown cls cpu n lim tlim pool s :
  reachable cls (__init__ cpu n lim tlim) pool s →
  (∀ ex q, main s = R_poll → get (_fatal_errors (crawler s)) = Some (ex, q) →
     run cls s
     = Some (set_main (R_sent_net 0 (Some ex)) (upd_crawler (with_fatal_errors q) s)))
  ∧ (∀ ex, pending (main s) = Some ex → run_over (main s) = false →
       fatal_history s = ex :: items (_fatal_errors (crawler s)))
  ∧ (run_over (main s) = true →
       task_puts None s = Z.to_nat n
       ∧ result_puts None s = Z.to_nat (Z.max 1 (cpu / 2))
       ∧ length (nets s) = Z.to_nat n ∧ all_nets_done s
       ∧ length (parsers s) = Z.to_nat (Z.max 1 (cpu / 2)) ∧ all_parsers_finished s
       ∧ (∀ ex, main s = R_raised ex → ObsFatalPut ex ∈ log s)
       ∧ match main s with
         | R_raised ex =>
             (fatal_history s = ex :: items (_fatal_errors (crawler s))
              ∧ shutdown_hook_calls s = 1%nat)
             ∨ (∃ p, fatal_history s
                     = option_list p ++ ex :: items (_fatal_errors (crawler s))
                     ∧ shutdown_hook_calls s = 0%nat)
         | _ =>
             fatal_history s = items (_fatal_errors (crawler s))
             ∧ shutdown_hook_calls s = 1%nat
         end).
Proof.
  intros Hr.
  pose proof (reachable_config _ _ _ _ _ _ _ Hr) as Hcfg.
  pose proof (reachable_fatal_ok _ _ _ _ _ _ _ Hr) as Hfat.
  destruct (reachable_teardown_ok _ _ _ _ _ _ _ Hr)
    as [(_ & _ & _ & Hp) (_ & Hpend & Ht)].
  rewrite Hcfg in *. simpl in *. split_and!.
  - intros ex q Hm Hg. unfold run. by rewrite Hm, Hg.
  - intros ex Hex Hover. unfold fatal_ok in Hfat.
    destruct (main s); simplify_eq/=; done.
  - intros Hover. unfold fatal_ok in Hfat.
    destruct (main s); try done; destruct_and?; split_and!; try done.
    intros ex' ?; apply Hpend; by simplify_eq/=.
Qed.

Lemma run_exits_after_teardown_witness :
  let s := after crawler_a sched_two_errors (boot (small 10) pool_a) in
  reachable crawler_a (small 10) pool_a s
  ∧ run_over (main s) = true
  ∧ task_puts None s = 1%nat ∧ result_puts None s = 1%nat
  ∧ length (nets s) = 1%nat ∧ all_nets_done s
  ∧ length (parsers s) = 1%nat ∧ all_parsers_finished s
  ∧ (∀ ex, main s = R_raised ex → ObsFatalPut ex ∈ log s).
Proof.
  assert (reachable crawler_a (small 10) pool_a
            (after crawler_a sched_two_errors (boot (small 10) pool_a))) as Hr
    by (exists sched_two_errors; vm_compute; reflexivity).
  split; [exact Hr|]. split; [reflexivity|].
  destruct (proj2 (proj2 (run_exits_after_teardown crawler_a 2 1 10 10 pool_a _ Hr))
              eq_refl) as (? & ? & ? & ? & ? & ? & ? & _).
  by split_and!.
Defined.

(** The hook of line 243 runs at most once, and only after the joins. *)
Lemma shutdown_hook_at_most_once cls cpu n lim tlim pool s :
  reachable cls (__init__ cpu n lim tlim) pool s →
  (shutdown_hook_calls s ≤ 1)%nat
  ∧ (shutdown_hook_calls s = 1%nat → all_nets_done s ∧ all_parsers_finished s)
  ∧ (main s = R_returned → shutdown_hook_calls s = 1%nat).
Proof.
  intros Hr.
  destruct (reachable_teardown_ok _ _ _ _ _ _ _ Hr) as [_ (_ & _ & Ht)].
  destruct (main s); destruct_and?; split_and!; try done; lia.
Qed.

(** ** The response queue *)

Lemma filter_length_insert {A} (p : A → bool) (l : list A) i x y :
  l !! i = Some x →
  (length (List.filter p (<[i:=y]> l)) + (if p x then 1 else 0)
   = length (List.filter p l) + (if p y then 1 else 0))%nat.
Proof.
  revert i. induction l as [|a l IH]; intros [|i] Hi; simplify_eq/=.
  - destruct (p x), (p y); simpl; lia.
  - specialize (IH _ Hi). destruct (p a); simpl; lia.
Qed.

Lemma filter_length_replicate {A} (p : A → bool) n x :
  p x = false → length (List.filter p (replicate n x)) = 0%nat.
Proof. intros Hp. induction n as [|n IH]; simpl; [done|]. by rewrite Hp. Qed.


Ltac note_insert p :=
  match goal with
  | H : ?l !! ?i = Some ?x |- context [<[?i:=?y]> ?l] =>
      pose proof (filter_length_insert p l i x y H)
  end.

Ltac queue_eqs :=
  repeat match goal with
  | H : put _ _ = Some _ |- _ => apply put_items in H as [? ?]
  | H : get _ = Some _ |- _ => apply get_items in H as [? ?]
  end.

Lemma results_ok_step cls l s s' :
  pools_ok s → results_ok s → step cls l s = Some s' → results_ok s'.
Proof.
  intros Hp Hinv H r resp. specialize (Hinv r resp).
  destruct l; step_cases H; queue_eqs;
    destruct Hinv as (Hcount & Hq & Hd);
    unfold successful_fetches, result_puts, about_to_put, count in *; simpl in *;
    try note_insert (holds_result r resp); simpl in *.
  all: repeat case_bool_decide; destruct_and?; simplify_eq/=; try done.
  all: split; [try lia|split].
  all: try (intros j' [(-> & ? & ?)|[? ?]]%list_lookup_insert_Some; simplify_eq;
            try (apply Nat.lt_lt_succ_r);
            first [ by eauto
                  | apply Hq;
                    match goal with H : items _ = _ :: _ |- _ => rewrite H end;
                    by left ]).
  all: try (intros j' Hj'; try (apply Nat.lt_lt_succ_r); by eauto).
  all: try lia.
  all: try (intros Hin; try (apply Nat.lt_lt_succ_r); apply Hq;
            match goal with
            | _ => exact Hin
            | H : items _ = _ :: _ |- _ => rewrite H; by apply elem_of_cons; right
            | H : items _ = _ ++ [_] |- _ =>
                rewrite H in Hin;
                apply elem_of_app in Hin as [Hin|Hin%list_elem_of_singleton];
                [done|congruence]
            end).
  all: destruct Hp as (_ & _ & _ & Hp); rewrite H0 in Hp;
    destruct Hp as (Hn & Hpar & _).
  - rewrite Hn in *. simpl in *. by rewrite filter_length_replicate.
  - rewrite Hpar. simpl. intros j Hj. by apply lookup_replicate in Hj as [? _].
Qed.

Lemma results_ok_boot cpu n lim tlim pool :
  results_ok (boot (__init__ cpu n lim tlim) pool).
Proof.
  intros r resp. split_and!; try done. simpl. by intros ?%elem_of_nil.
Qed.

Lemma reachable_results_ok cls cpu n lim tlim pool s :
  reachable cls (__init__ cpu n lim tlim) pool s → results_ok s.
Proof.
  intros Hr.
  cut (pools_ok s ∧ results_ok s); [by intros [_ ?]|]. revert s Hr.
  apply (reachable_invariant _ _ _ (λ s, pools_ok s ∧ results_ok s)).
  - split; [apply pools_ok_boot | apply results_ok_boot].
  - intros l s1 s2 [Hp Ht] H. split; [by eapply pools_ok_step | by eapply results_ok_step].
Qed.


Lemma error_path_step i tr s s' pc :
  nets s !! i = Some pc → on_error_path pc = true →
  worker_network i tr s = Some s' →
  _response_queue (crawler s') = _response_queue (crawler s)
  ∧ result_puts None s' = result_puts None s
  ∧ (∀ x, result_puts x s' = result_puts x s)
  ∧ ∃ pc', nets s' !! i = Some pc' ∧ (on_error_path pc' = true ∨ pc' = N_inactive).
Proof.
  intros Hi Hpc H. pose proof (lookup_lt_Some _ _ _ Hi) as Hlt.
  unfold worker_network in H. rewrite Hi in H. simpl in H.
  destruct pc; try done; unfold request_put, fatal_put in H;
    repeat (simplify_option_eq; try case_match);
    (split_and!; [done..|]); eexists; (split; [by apply list_lookup_insert_eq|]); eauto.
Qed.

Lemma failed_fetch_step i ex s s' r :
  nets s !! i = Some (N_fetch r) →
  worker_network i (Raise ex) s = Some s' →
  _response_queue (crawler s') = _response_queue (crawler s)
  ∧ (∀ x, result_puts x s' = result_puts x s)
  ∧ ∃ pc', nets s' !! i = Some pc' ∧ on_error_path pc' = true.
Proof.
  intros Hi H. pose proof (lookup_lt_Some _ _ _ Hi) as Hlt.
  unfold worker_network in H. rewrite Hi in H. simpl in H.
  repeat (simplify_option_eq; try case_match);
    (split_and!; [done..|]); eexists; (split; [by apply list_lookup_insert_eq|]); eauto.
Qed.

(** C7. In every reachable state the pairs [(r, resp)] put on the response
    queue, together with those a network worker holds at line 103, are
    exactly as many as the fetches of [r] that returned [resp]; a pair in
    the queue or in a parser's hands therefore has a successful fetch
    behind it.  A fetch that raises leads the worker along lines 92-101 to
    line 105 without any put on the response queue. *)
Theorem results_only_from_successful_fetches cls cpu n lim tlim pool s r resp :
  reachable cls (__init__ cpu n lim tlim) pool s →
  (result_puts (Some (r, resp)) s + about_to_put r resp s
   = successful_fetches r resp s)%nat
  ∧ (Some (r, resp) ∈ items (_response_queue (crawler s)) →
     (0 < successful_fetches r resp s)%nat)
  ∧ (∀ j, parsers s !! j = Some (P_dispatch r resp) →
     (0 < successful_fetches r resp s)%nat)
  ∧ (∀ i ex s', nets s !! i = Some (N_fetch r) →
       worker_network i (Raise ex) s = Some s' →
       _response_queue (crawler s') = _response_queue (crawler s)
       ∧ ∃ pc', nets s' !! i = Some pc' ∧ on_error_path pc' = true)
  ∧ (∀ i tr pc s', nets s !! i = Some pc → on_error_path pc = true →
       worker_network i tr s = Some s' →
       _response_queue (crawler s') = _response_queue (crawler s)
       ∧ ∃ pc', nets s' !! i = Some pc' ∧ (on_error_path pc' = true ∨ pc' = N_inactive)).
Proof.
  intros Hr. destruct (reachable_results_ok _ _ _ _ _ _ _ Hr r resp) as (Hc & Hq & Hd).
  split_and!; [done|..].
  - intros Hin. specialize (Hq Hin). lia.
  - intros j Hj. specialize (Hd j Hj). lia.
  - intros i ex s' Hi H.
    destruct (failed_fetch_step _ _ _ _ _ Hi H) as (? & _ & ?). done.
  - intros i tr pc s' Hi Hpc H.
    destruct (error_path_step _ _ _ _ _ Hi Hpc H) as (? & _ & _ & ?). done.
Qed.

Lemma results_only_from_successful_fetches_witness :
  let s := after crawler_one sched_stale_check (boot (small 10) pool_a) in
  reachable crawler_one (small 10) pool_a s
  ∧ Some (0%nat, 7%nat) ∈ items (_response_queue (crawler s))
  ∧ (0 < successful_fetches 0 7 s)%nat.
Proof.
  assert (reachable crawler_one (small 10) pool_a
            (after crawler_one sched_stale_check (boot (small 10) pool_a))) as Hr
    by (exists sched_stale_check; vm_compute; reflexivity).
  assert (Some (0%nat, 7%nat) ∈ items (_response_queue (crawler
            (after crawler_one sched_stale_check (boot (small 10) pool_a))))) as Hin
    by (vm_compute; apply list_elem_of_here).
  split; [exact Hr|]. split; [exact Hin|].
  exact (proj1 (proj2 (results_only_from_successful_fetches
                         crawler_one 2 1 10 10 pool_a _ 0%nat 7%nat Hr)) Hin).
Defined.

(** ** One request object *)

Lemma register_handlers_from ms t h :
  register_handlers ms !! t = Some h → ∃ key, (key, Callable h) ∈ ms.
Proof.
  unfold register_handlers.
  cut (∀ acc : gmap string Handler,
         fold_left
           (λ handlers '(key, thing),
              if String.prefix "handler_" key then
                match thing with
                | Callable h => <[strip_handler_prefix key := h]> handlers
                | NotCallable => handlers
                end
              else handlers) ms acc !! t = Some h →
         acc !! t = Some h ∨ ∃ key, (key, Callable h) ∈ ms).
  { intros Hcut H. destruct (Hcut _ H) as [Hacc|?]; [|done].
    by rewrite lookup_empty in Hacc. }
  induction ms as [|[key thing] ms IH]; intros acc H; simpl in H; [by left|].
  destruct (IH _ H) as [Hacc|[key' Hin]].
  - destruct (String.prefix "handler_" key), thing; eauto.
    destruct (decide (strip_handler_prefix key = t)) as [<-|Hne].
    + rewrite lookup_insert_eq in Hacc. simplify_eq.
      right. exists key. apply list_elem_of_here.
    + rewrite lookup_insert_ne in Hacc by done. by left.
  - right. exists key'. by apply list_elem_of_further.
Qed.






Lemma filter_length_zero {A} (p : A → bool) (l : list A) :
  length (List.filter p l) = 0%nat → Forall (λ x, p x = false) l.
Proof.
  induction l as [|a l IH]; simpl; [constructor|].
  destruct (p a) eqn:Hp; simpl; [done|]. intros H. constructor; auto.
Qed.




















(** ** A worker alone with a request that never fetches *)

Lemma set_net_lookup i pc s :
  (i < length (nets s))%nat → nets (set_net i pc s) !! i = Some pc.
Proof. intros Hi. simpl. by apply list_lookup_insert_eq. Qed.


Lemma exec_step cls l sched s s1 s' :
  step cls l s = Some s1 → exec cls sched s1 = Some s' →
  exec cls (l :: sched) s = Some s'.
Proof. intros H1 H2. simpl. by rewrite H1. Qed.

Lemma exec_app_Some cls l1 l2 s s1 s' :
  exec cls l1 s = Some s1 → exec cls l2 s1 = Some s' →
  exec cls (l1 ++ l2) s = Some s'.
Proof. intros H1 H2. by rewrite exec_app, H1. Qed.







(** ** Retries and rejection *)






(** ** A request object that enters the engine once *)

Lemma lone_stage_frame r L c c' pc :
  holds_request r pc = false → lone_stage r L c pc → lone_stage r L c' pc.
Proof. destruct pc; simpl; try done; case_bool_decide; done. Qed.

Lemma lone_stage_all_frame r L c c' (l : list NetPC) :
  length (List.filter (holds_request r) l) = 0%nat →
  Forall (lone_stage r L c) l → Forall (lone_stage r L c') l.
Proof.
  intros H0%filter_length_zero Hst. apply Forall_lookup. intros j y Hj.
  eapply lone_stage_frame; [by eapply (Forall_lookup_1 _ _ _ _ H0)|].
  by eapply (Forall_lookup_1 _ _ _ _ Hst).
Qed.














(** ** The task generator *)

(** Only the generator thread moves its own program counter. *)
Lemma step_gen_other cls l s s' :
  step cls l s = Some s' → l ≠ LGen → main s ≠ R_start → gen s' = gen s.
Proof. intros H Hl Hm. destruct l; try done; step_cases H; done. Qed.

(** C10 (amended).  While work is allowed, a task that is neither a
    [Request] nor a tuple takes the generator thread to line 76 with an
    [UnknownTaskType] whose message names the task (more generally, any
    task that is not a [Request] takes it there with the exception that
    line 72 raises); the thread puts the exception on the fatal channel
    and ends: it puts nothing on the request queue, takes no further step,
    and no other thread moves it.  When work is not allowed, the thread
    ends at the first task it pulls, whatever the task is, [Request] or
    not: nothing is put on any queue and nothing is raised. *)
Theorem non_request_task_is_fatal cls cpu n lim tlim pool s k :
  reachable cls (__init__ cpu n lim tlim) pool s → gen s = G_next k →
  (∀ str, task_generator cls k = GYield (VObj str) →
     _work_allowed (crawler s) = true →
     worker_task_generator cls s
     = Some (set_gen
               (G_fatal (UnknownTaskType
                           ("Unknown task got from task_generator: " +:+ str))) s))
  ∧ (∀ task, task_generator cls k = GYield task →
       isinstance_Request task = None → _work_allowed (crawler s) = true →
       worker_task_generator cls s
       = Some (set_gen (G_fatal (raise_UnknownTaskType task)) s))
  ∧ (∀ task, task_generator cls k = GYield task →
       _work_allowed (crawler s) = false →
       worker_task_generator cls s = Some (set_gen G_done s))
  ∧ (∀ s1 ex, reachable cls (__init__ cpu n lim tlim) pool s1 →
       gen s1 = G_fatal ex →
       ∃ s2, worker_task_generator cls s1 = Some s2
         ∧ gen s2 = G_done
         ∧ items (_fatal_errors (crawler s2)) = items (_fatal_errors (crawler s1)) ++ [ex]
         ∧ _request_queue (crawler s2) = _request_queue (crawler s1)
         ∧ log s2 = ObsFatalPut ex :: log s1)
  ∧ (∀ s2, gen s2 = G_done → worker_task_generator cls s2 = None)
  ∧ (∀ l s1 s2, step cls l s1 = Some s2 → l ≠ LGen → main s1 ≠ R_start →
       gen s2 = gen s1).
Proof.
  intros Hreach Hg. split_and!.
  - intros str Hk Hwork. unfold worker_task_generator. by rewrite Hg, Hk, Hwork.
  - intros task Hk Hnot Hwork. unfold worker_task_generator.
    by rewrite Hg, Hk, Hwork, Hnot.
  - intros task Hk Hwork. unfold worker_task_generator. by rewrite Hg, Hk, Hwork.
  - intros s1 ex Hr1 Hg1.
    destruct (reachable_pools_ok _ _ _ _ _ _ _ Hr1) as (Hmax & _).
    unfold worker_task_generator, fatal_put. rewrite Hg1.
    rewrite put_unbounded by lia. simpl. by eexists.
  - intros s2 Hg2. unfold worker_task_generator. by rewrite Hg2.
  - intros l s1 s2. apply step_gen_other.
Qed.

Lemma non_request_task_witness :
  let s := after crawler_int [LMain] (boot (small 10) ∅) in
  reachable crawler_int (small 10) ∅ s
  ∧ gen s = G_next 0 ∧ task_generator crawler_int 0 = GYield (VObj "42")
  ∧ _work_allowed (crawler s) = true
  ∧ worker_task_generator crawler_int s
    = Some (set_gen
              (G_fatal (UnknownTaskType
                          ("Unknown task got from task_generator: " +:+ "42"))) s).
Proof.
  assert (reachable crawler_int (small 10) ∅
            (after crawler_int [LMain] (boot (small 10) ∅))) as Hr
    by (exists [LMain]; vm_compute; reflexivity).
  split_and!; [exact Hr|reflexivity..|].
  exact (proj1 (non_request_task_is_fatal crawler_int 2 1 10 10 ∅ _ 0%nat
                  Hr eq_refl) "42" eq_refl eq_refl).
Defined.

(** ** The quiescence check and the parser loop *)

(** What the orchestrator has read when it reaches line 214. *)
Lemma disallow_guard cls s s' :
  run cls s = Some s' → main s' = R_disallow →
  ∃ k, main s = R_c3 k ∧ _net_threads (crawler s) !! k = None.
Proof.
  unfold run, request_put, response_put. intros H Hm.
  destruct (main s) eqn:Hs; repeat (simplify_option_eq; try case_match); eauto.
Qed.

Lemma flags_guard cls s s' k :
  run cls s = Some s' → main s' = R_c3 k →
  (k = 0%nat ∧ main s = R_c2 ∧ qsize (_response_queue (crawler s)) = 0)
  ∨ (∃ k' x, k = S k' ∧ main s = R_c3 k'
       ∧ _net_threads (crawler s) !! k' = Some x ∧ active x = false).
Proof.
  unfold run, request_put, response_put. intros H Hm.
  destruct (main s) eqn:Hs; repeat (simplify_option_eq; try case_match);
    try (right; by eauto 10).
  left. split_and!; try done. by apply Z.eqb_eq.
Qed.

Lemma sizes_guard cls s s' :
  run cls s = Some s' → main s' = R_c2 →
  main s = R_c1 ∧ qsize (_request_queue (crawler s)) = 0.
Proof.
  unfold run, request_put, response_put. intros H Hm.
  destruct (main s) eqn:Hs; repeat (simplify_option_eq; try case_match).
  split; [done|]. by apply Z.eqb_eq.
Qed.

Lemma paused_guard cls s s' :
  run cls s = Some s' → main s' = R_c1 →
  ∃ k, main s = R_wait_paused k ∧ _parser_threads (crawler s) !! k = None.
Proof.
  unfold run, request_put, response_put. intros H Hm.
  destruct (main s) eqn:Hs; repeat (simplify_option_eq; try case_match); eauto.
Qed.

(** A parser that finds the response queue empty pauses, whatever the
    pause event says. *)
Lemma parser_pauses_on_empty_queue cls j s :
  parsers s !! j = Some P_get → items (_response_queue (crawler s)) = [] →
  ∃ s', exec cls [LPar j; LPar j; LPar j] s = Some s'
    ∧ parsers s' !! j = Some P_wait
    ∧ _parser_threads (crawler s') = alter (set_paused true) j (_parser_threads (crawler s))
    ∧ _pause_event (crawler s') = _pause_event (crawler s)
    ∧ _resume_event (crawler s') = _resume_event (crawler s).
Proof.
  intros Hj Hq. pose proof (lookup_lt_Some _ _ _ Hj) as Hlen.
  eexists. split.
  { eapply exec_step.
    { simpl. unfold worker_parser. rewrite Hj. simpl. unfold get. rewrite Hq.
      reflexivity. }
    eapply exec_step.
    { simpl. unfold worker_parser. simpl. rewrite list_lookup_insert_eq by done.
      reflexivity. }
    eapply exec_step.
    { simpl. unfold worker_parser. simpl.
      rewrite list_lookup_insert_eq by (by rewrite ?length_insert). reflexivity. }
    reflexivity. }
  simpl. split_and!; try done.
  by rewrite list_lookup_insert_eq by (by rewrite ?length_insert).
Qed.

(** A lookup that fails at line 133 ends the thread and leaves the
    [Crawler] object as it was. *)
Lemma unknown_tag_kills_parser j s r resp req :
  parsers s !! j = Some (P_dispatch r resp) → heap s !! r = Some req →
  _handlers (crawler s) !! tag req = None →
  ∃ s', worker_parser j s = Some s'
    ∧ parsers s' !! j = Some (P_crashed (KeyError (tag req)))
    ∧ crawler s' = crawler s ∧ log s' = log s
    ∧ worker_parser j s' = None.
Proof.
  intros Hj Hr Hh. pose proof (lookup_lt_Some _ _ _ Hj) as Hlen.
  unfold worker_parser at 1. rewrite Hj. simpl. rewrite Hr. simpl.
  rewrite Hh.
  eexists. split; [done|]. split_and!; try done.
  - simpl. by apply list_lookup_insert_eq.
  - unfold worker_parser. simpl. by rewrite list_lookup_insert_eq.
Qed.

(** Whatever the handler call, the iteration or the assertion raise is put
    on the fatal channel, and the parser goes back to line 123. *)
Lemma handler_error_is_fatal j s ex :
  parsers s !! j = Some (P_fatal ex) → maxsize (_fatal_errors (crawler s)) ≤ 0 →
  ∃ s', worker_parser j s = Some s'
    ∧ parsers s' !! j = Some P_get
    ∧ items (_fatal_errors (crawler s')) = items (_fatal_errors (crawler s)) ++ [ex]
    ∧ log s' = ObsFatalPut ex :: log s.
Proof.
  intros Hj Hmax. pose proof (lookup_lt_Some _ _ _ Hj) as Hlen.
  unfold worker_parser, fatal_put. rewrite Hj. simpl.
  rewrite put_unbounded by done. simpl.
  eexists. split; [done|]. split_and!; try done. by apply list_lookup_insert_eq.
Qed.

Lemma handler_raise_caught j s r resp req h :
  parsers s !! j = Some (P_dispatch r resp) → heap s !! r = Some req →
  _handlers (crawler s) !! tag req = Some h →
  ∃ s', worker_parser j s = Some s' ∧ crawler s' = crawler s
    ∧ parsers s' !! j = Some
        match h r resp with
        | HRaise ex => P_fatal ex
        | HNone => P_get
        | HIter ys fin => P_iter ys fin
        end.
Proof.
  intros Hj Hr Hh. pose proof (lookup_lt_Some _ _ _ Hj) as Hlen.
  unfold worker_parser. rewrite Hj. simpl. rewrite Hr. simpl.
  rewrite Hh.
  destruct (h r resp); eexists; (split; [done|]); split; try done;
    simpl; by apply list_lookup_insert_eq.
Qed.

Lemma iteration_error_caught j s ys fin :
  parsers s !! j = Some (P_iter ys fin) →
  ∃ s', worker_parser j s = Some s' ∧ crawler s' = crawler s
    ∧ parsers s' !! j = Some
        match ys, fin with
        | [], None => P_get
        | [], Some ex => P_fatal ex
        | VReq r :: rest, _ => P_put r rest fin
        | _ :: _, _ => P_fatal AssertionError
        end.
Proof.
  intros Hj. pose proof (lookup_lt_Some _ _ _ Hj) as Hlen.
  unfold worker_parser. rewrite Hj. simpl.
  destruct ys as [|[]], fin; eexists; (split; [done|]); split; try done;
    simpl; by apply list_lookup_insert_eq.
Qed.

(** ** Concrete runs *)

(** C1. With one network worker and one parser, the orchestrator finds both
    queues empty (lines 206-207) while the worker is still fetching, the
    worker then delivers its result and clears its flag, and the
    orchestrator, reading the flag afterwards (lines 208-211), disallows
    work: at line 214 the response queue holds a pair. *)
Theorem disallow_with_pending_result :
  (λ s, (main s, head (log s), _work_allowed (crawler s),
         items (_request_queue (crawler s)), items (_response_queue (crawler s)),
         active <$> _net_threads (crawler s), paused <$> _parser_threads (crawler s)))
    <$> exec crawler_one sched_stale_check (boot (small 10) pool_a)
  = Some (R_unpause, Some ObsDisallow, false, [], [Some (0%nat, 7%nat)], [false], [true]).
Proof. vm_compute. reflexivity. Qed.

(** C4. The tag of request 0 has no handler: the lookup of line 133 raises
    [KeyError] outside the [try] of lines 137-145, the parser thread dies,
    nothing reaches the fatal channel and the thread takes no further
    step. *)
Theorem parser_dies_on_unknown_tag :
  (λ s, (parsers s, items (_fatal_errors (crawler s)), worker_parser 0 s))
    <$> exec crawler_a sched_untagged (boot (small 10) pool_untagged)
  = Some ([P_crashed (KeyError "zzz")], [], None).
Proof. vm_compute. reflexivity. Qed.

(** C5. No pause was requested ([_pause_event] is not set) and the response
    queue is empty: the parser still marks itself paused and blocks on
    [_resume_event.wait()]. *)
Theorem parser_pauses_unasked :
  (λ s, (is_set (_pause_event (crawler s)), is_set (_resume_event (crawler s)),
         paused <$> _parser_threads (crawler s), parsers s, worker_parser 0 s))
    <$> exec crawler_a sched_idle_parser (boot (small 10) pool_a)
  = Some (false, false, [true], [P_wait], None).
Proof. vm_compute. reflexivity. Qed.

(** C8. Two fatal errors are on the channel: the main loop raises the first,
    the [finally] block joins the workers, finds the second at line 238 and
    raises it at line 242, so [shutdown_hook] (line 243) is never
    called. *)
Theorem no_shutdown_hook_after_late_error :
  (λ s, (main s, shutdown_hook_calls s, nets s, parsers s))
    <$> exec crawler_a sched_two_errors (boot (small 10) pool_a)
  = Some (R_raised value_error, 0%nat, [N_done], [P_done]).
Proof. vm_compute. reflexivity. Qed.

(** With a single fatal error the same teardown does call the hook, once,
    and then raises. *)
Lemma shutdown_hook_after_single_error :
  (λ s, (main s, shutdown_hook_calls s, nets s, parsers s))
    <$> exec crawler_a sched_one_error (boot (small 10) pool_a)
  = Some (R_raised io_error, 1%nat, [N_done], [P_done]).
Proof. vm_compute. reflexivity. Qed.

(** C3, as stated, fails: a worker pushed [io_error] onto the fatal channel,
    yet the run raises [value_error]; and when it raises, the generator
    thread is still alive, blocked in [put]. *)
Lemma run_raises_another_error :
  (λ s, (bool_decide (ObsFatalPut io_error ∈ log s), main s, gen_alive (gen s),
         gen s, worker_task_generator crawler_a s))
    <$> exec crawler_a sched_two_errors (boot (small 10) pool_a)
  = Some (true, R_raised value_error, true, G_put 3 3%nat, None)
  ∧ io_error ≠ value_error.
Proof. split; [vm_compute; reflexivity | discriminate]. Qed.


(** C10, as stated, fails: once [shutdown()] has been called, a task that is
    not a [Request] ends the generator thread at line 68; no error is raised
    and the fatal channel stays empty. *)
Lemma non_request_after_shutdown :
  task_generator crawler_int 0 = GYield (VObj "42")
  ∧ isinstance_Request (VObj "42") = None
  ∧ (λ s, (gen s, items (_fatal_errors (crawler s)), log s))
      <$> exec crawler_int sched_shutdown_first (boot (small 10) ∅)
    = Some (G_done, [], []).
Proof. repeat split. Qed.

(** A fatal error has been put on the channel and polled, the sentinels are
    out and the network thread is joined, but the parser has been waiting
    on [_resume_event] since its queue timed out: [join] never returns, no
    thread can move and [run] neither raises nor returns. *)
Lemma teardown_hangs_on_paused_parser :
  (λ s, (bool_decide (ObsFatalPut io_error ∈ log s), main s, parsers s,
         is_set (_resume_event (crawler s)),
         worker_task_generator crawler_a s, worker_network 0 idle s,
         worker_parser 0 s, run crawler_a s))
    <$> exec crawler_a sched_hang (boot (small 10) pool_a)
  = Some (true, R_join_par 0 (Some io_error), [P_wait], false,
          None, None, None, None).
Proof. vm_compute. reflexivity. Qed.

(** A task that is a two-element tuple: the [%] of line 73 takes it for the
    argument tuple, and what reaches the fatal channel is a [TypeError],
    not an [UnknownTaskType]. *)
Lemma tuple_task_raises_type_error :
  (λ s, (gen s, items (_fatal_errors (crawler s)),
         items (_request_queue (crawler s))))
    <$> exec crawler_pair [LMain; LGen; LGen] (boot (small 10) ∅)
  = Some (G_done,
          [TypeError "not all arguments converted during string formatting"], []).
Proof. vm_compute. reflexivity. Qed.

(** * Further properties of the engine *)

(** ** Handler registration *)

Lemma substring_all (t : string) : String.substring 0 (String.length t) t = t.
Proof. induction t as [|a t IH]; simpl; [done|by rewrite IH]. Qed.

Lemma append_cons a p t : String a p +:+ t = String a (p +:+ t).
Proof. reflexivity. Qed.

(** [key[8:]] gives back what follows the prefix. *)
Lemma strip_handler_prefix_append t : strip_handler_prefix ("handler_" +:+ t) = t.
Proof.
  unfold strip_handler_prefix. rewrite !append_cons.
  change ("" +:+ t) with t. simpl. rewrite Nat.sub_0_r. apply substring_all.
Qed.

Lemma prefix_split p key :
  String.prefix p key = true →
  key = p +:+ String.substring (String.length p) (String.length key - String.length p) key.
Proof.
  revert key. induction p as [|a p IH]; intros key H; simpl in *.
  - by rewrite Nat.sub_0_r, substring_all.
  - destruct key as [|b key]; [done|]. simpl in *.
    destruct (Ascii.ascii_dec a b) as [->|]; [|done].
    rewrite append_cons. f_equal. by apply IH.
Qed.

Lemma prefix_append p t : String.prefix p (p +:+ t) = true.
Proof.
  induction p as [|a p IH]; [by destruct t|].
  rewrite append_cons. simpl. by destruct (Ascii.ascii_dec a a).
Qed.

Lemma handler_key key :
  String.prefix "handler_" key = true → key = "handler_" +:+ strip_handler_prefix key.
Proof. intros H. by apply prefix_split in H. Qed.

(** The loop of lines 113-118, started from any dictionary. *)
Lemma register_handlers_fold ms (acc : gmap string Handler) t h :
  NoDup ms.*1 →
  fold_left
    (λ handlers '(key, thing),
       if String.prefix "handler_" key then
         match thing with
         | Callable h => <[strip_handler_prefix key := h]> handlers
         | NotCallable => handlers
         end
       else handlers) ms acc !! t = Some h
  ↔ ("handler_" +:+ t, Callable h) ∈ ms
    ∨ ((∀ h', ("handler_" +:+ t, Callable h') ∉ ms) ∧ acc !! t = Some h).
Proof.
  revert acc. induction ms as [|[key thing] ms IH]; intros acc Hnd; simpl.
  { split; [intros H; right; split; [intros h' Hin; by apply elem_of_nil in Hin|done]|].
    intros [Hin|[_ H]]; [by apply elem_of_nil in Hin|done]. }
  apply NoDup_cons in Hnd as [Hkey Hnd]. rewrite (IH _ Hnd). clear IH.
  assert (∀ x, (key, x) ∉ ms) as Hfresh.
  { intros x Hin. apply Hkey. apply list_elem_of_fmap. by exists (key, x). }
  setoid_rewrite elem_of_cons.
  destruct (String.prefix "handler_" key) eqn:Hpre.
  - apply handler_key in Hpre.
    destruct (decide (strip_handler_prefix key = t)) as [<-|Hne].
    + rewrite <- Hpre. destruct thing as [h0|].
      * rewrite lookup_insert_eq. split.
        -- intros [Hin|[_ Heq]]; [by apply Hfresh in Hin|]. simplify_eq. by left; left.
        -- intros [[Heq|Hin]|[Hno _]]; [|by apply Hfresh in Hin|].
           ++ simplify_eq. right. split; [intros h' Hin; by apply Hfresh in Hin|done].
           ++ exfalso. apply (Hno h0). by left.
      * split.
        -- intros [Hin|[_ Hacc]]; [by apply Hfresh in Hin|]. right.
           split; [|done]. intros h' [Heq|Hin]; [done|by apply Hfresh in Hin].
        -- intros [[Heq|Hin]|[_ Hacc]]; [done|by apply Hfresh in Hin|].
           right. split; [intros h' Hin; by apply Hfresh in Hin|done].
    + assert (key ≠ "handler_" +:+ t) as Hk.
      { intros ->. by rewrite strip_handler_prefix_append in Hne. }
      assert (∀ x y, (("handler_" +:+ t, x) = (key, y) ∨ ("handler_" +:+ t, x) ∈ ms)
                     ↔ ("handler_" +:+ t, x) ∈ ms) as Hskip.
      { intros x y. split; [intros [?|?]; [by simplify_eq|done]|by right]. }
      destruct thing as [h0|]; rewrite ?lookup_insert_ne by done;
        setoid_rewrite Hskip; done.
  - assert (key ≠ "handler_" +:+ t) as Hk.
    { intros ->. by rewrite prefix_append in Hpre. }
    assert (∀ x y, (("handler_" +:+ t, x) = (key, y) ∨ ("handler_" +:+ t, x) ∈ ms)
                   ↔ ("handler_" +:+ t, x) ∈ ms) as Hskip.
    { intros x y. split; [intros [?|?]; [by simplify_eq|done]|by right]. }
    setoid_rewrite Hskip. done.
Qed.

(** X1. [register_handlers] maps the tag [t] to [h] exactly when the
    attribute named ["handler_" + t] is the callable [h]: attributes without
    the prefix and attributes that are not callable are left out, and the
    attribute named ["handler_"] itself is registered under the empty tag.
    ([dir(self)] lists every name once.) *)
Theorem register_handlers_lookup ms t h :
  NoDup ms.*1 →
  register_handlers ms !! t = Some h ↔ ("handler_" +:+ t, Callable h) ∈ ms.
Proof.
  intros Hnd. unfold register_handlers. rewrite register_handlers_fold by done.
  rewrite lookup_empty. split; [intros [?|[_ ?]]; done | by left].
Qed.

Lemma register_handlers_lookup_witness :
  NoDup members_mixed.*1
  ∧ (register_handlers members_mixed !! "" = Some handler_fail
     ↔ ("handler_" +:+ "", Callable handler_fail) ∈ members_mixed)
  ∧ (register_handlers members_mixed !! "stats" = Some handler_none
     ↔ ("handler_" +:+ "stats", Callable handler_none) ∈ members_mixed).
Proof.
  assert (NoDup members_mixed.*1) as Hnd
    by (apply (bool_decide_unpack _); vm_compute; reflexivity).
  split; [exact Hnd|]. split.
  - exact (register_handlers_lookup members_mixed "" handler_fail Hnd).
  - exact (register_handlers_lookup members_mixed "stats" handler_none Hnd).
Defined.

(** ** Queue bounds and calls from user code *)

Lemma reachable_exec cls c pool sched s s' :
  reachable cls c pool s → exec cls sched s = Some s' → reachable cls c pool s'.
Proof.
  intros [sched0 H0] H. exists (sched0 ++ sched). by eapply exec_app_Some.
Qed.

Lemma put_within {A} (x : A) (q q' : Queue A) :
  within_capacity q → put x q = Some q' → within_capacity q'.
Proof.
  unfold within_capacity, put, full, qsize. intros Hq H.
  destruct (0 <? maxsize q) eqn:Hpos, (maxsize q <=? Z.of_nat (length (items q))) eqn:Hle;
    simplify_eq/=; rewrite length_app; simpl; lia.
Qed.

Lemma get_within {A} (x : A) (q q' : Queue A) :
  within_capacity q → get q = Some (x, q') → within_capacity q'.
Proof.
  unfold within_capacity, get, qsize. intros Hq H.
  destruct (items q) eqn:Hi; simplify_eq/=. lia.
Qed.

Lemma queues_within_step cls l s s' :
  queues_within s → step cls l s = Some s' → queues_within s'.
Proof.
  intros [Hq Hr] H.
  destruct l; step_cases H; split; simpl; try done;
    first [ by eapply put_within | by eapply get_within ].
Qed.

(** X2. Throughout a run the request queue never holds more than
    [num_network_threads] items (when that number is positive) and the
    response queue never more than [num_parsers = max(1, cpu_count // 2)]:
    every producer blocks in [put] instead. *)
Theorem queues_within_capacity cls cpu n lim tlim pool s :
  reachable cls (__init__ cpu n lim tlim) pool s →
  (0 < n → qsize (_request_queue (crawler s)) ≤ n)
  ∧ qsize (_response_queue (crawler s)) ≤ Z.max 1 (cpu / 2).
Proof.
  intros Hr.
  destruct (reachable_pools_ok _ _ _ _ _ _ _ Hr) as (_ & Hmr & Hmp & _).
  rewrite (reachable_config _ _ _ _ _ _ _ Hr) in Hmr, Hmp. simpl in Hmr, Hmp.
  assert (queues_within s) as [Hq Hp].
  { eapply (reachable_invariant _ _ _ queues_within); [| |exact Hr].
    - split; unfold within_capacity, qsize; simpl; lia.
    - intros. by eapply queues_within_step. }
  unfold within_capacity in *. rewrite Hmr in Hq. rewrite Hmp in Hp. split; [done|lia].
Qed.

Lemma queues_within_capacity_witness :
  let s := after crawler_a sched_requeue_full (boot (small 10) pool_a) in
  reachable crawler_a (small 10) pool_a s
  ∧ (0 < 1 → qsize (_request_queue (crawler s)) ≤ 1)
  ∧ qsize (_response_queue (crawler s)) ≤ Z.max 1 (2 / 2).
Proof.
  assert (reachable crawler_a (small 10) pool_a
            (after crawler_a sched_requeue_full (boot (small 10) pool_a))) as Hr
    by (exists sched_requeue_full; vm_compute; reflexivity).
  split; [exact Hr|].
  exact (queues_within_capacity crawler_a 2 1 10 10 pool_a _ Hr).
Defined.

Lemma add_tasks_spec tasks s :
  within_capacity (_request_queue (crawler s)) →
  (add_tasks tasks s = None
   ↔ 0 < maxsize (_request_queue (crawler s))
         < qsize (_request_queue (crawler s)) + Z.of_nat (length tasks))
  ∧ (∀ s', add_tasks tasks s = Some s' →
       items (_request_queue (crawler s'))
       = items (_request_queue (crawler s)) ++ tasks
       ∧ main s' = main s ∧ gen s' = gen s ∧ nets s' = nets s
       ∧ parsers s' = parsers s).
Proof.
  revert s. induction tasks as [|task tasks IH]; intros s Hcap; simpl.
  { split; [|intros s' ?; simplify_eq; by rewrite app_nil_r].
    split; [done|]. unfold within_capacity in Hcap. lia. }
  unfold add_task, request_put.
  destruct (put task (_request_queue (crawler s))) as [q|] eqn:Hput; simpl.
  - pose proof (put_within _ _ _ Hcap Hput) as Hcap'.
    assert (¬ (0 < maxsize (_request_queue (crawler s))
                 ≤ qsize (_request_queue (crawler s)))) as Hroom.
    { intros Hfull. apply (put_blocks_iff task) in Hfull. congruence. }
    apply put_items in Hput as [Hitems Hmax].
    destruct (IH (emit (ObsTaskPut task) (upd_crawler (with_request_queue q) s)) Hcap')
      as [Hnone Hsome].
    simpl in *. unfold qsize in *. simpl in *.
    rewrite Hitems, length_app, Hmax in *. simpl in *. split.
    + rewrite Hnone. lia.
    + intros s' Hs'. destruct (Hsome _ Hs') as (-> & ? & ? & ? & ?).
      by rewrite <- app_assoc.
  - split; [|done]. apply put_blocks_iff in Hput. split; [lia|done].
Qed.

(** X3. Calls of [add_task] made before [run] fill the request queue in
    order; when [num_network_threads] is positive, the call that would make
    the queue longer than that blocks (no thread is there yet to take a
    task), and with [num_network_threads <= 0] no call ever blocks. *)
Theorem add_task_blocks_beyond_capacity cpu n lim tlim pool tasks :
  let s := boot (__init__ cpu n lim tlim) pool in
  (add_tasks tasks s = None ↔ 0 < n < Z.of_nat (length tasks))
  ∧ (∀ s', add_tasks tasks s = Some s' →
       items (_request_queue (crawler s')) = tasks ∧ main s' = R_start).
Proof.
  intros s.
  destruct (add_tasks_spec tasks s) as [Hnone Hsome].
  { unfold within_capacity, qsize. simpl. lia. }
  split.
  - rewrite Hnone. unfold qsize. simpl. lia.
  - intros s' Hs'. destruct (Hsome _ Hs') as (-> & -> & _). done.
Qed.

Lemma work_allowed_step cls l s s' :
  step cls l s = Some s' → _work_allowed (crawler s) = false →
  _work_allowed (crawler s') = false.
Proof. intros H Hw. destruct l; step_cases H; done. Qed.

(** X4. Nothing sets [_work_allowed] back: once [shutdown()] or line 214
    has made it false it is false in every later state, whatever the
    threads do. *)
Theorem shutdown_is_final cls sched s s' :
  exec cls sched s = Some s' → _work_allowed (crawler s) = false →
  _work_allowed (crawler s') = false.
Proof.
  intros H Hw. revert H.
  apply (exec_invariant cls (λ s, _work_allowed (crawler s) = false)); [|done].
  intros l s1 s2 Hs1 Hst. by eapply work_allowed_step.
Qed.

Lemma shutdown_is_final_witness :
  let s := after crawler_a sched_shutdown (boot (small 10) pool_a) in
  let s' := after crawler_a [LGen; LMain; LNet 0 idle; LPar 0] s in
  exec crawler_a [LGen; LMain; LNet 0 idle; LPar 0] s = Some s'
  ∧ _work_allowed (crawler s) = false
  ∧ _work_allowed (crawler s') = false.
Proof.
  assert (exec crawler_a [LGen; LMain; LNet 0 idle; LPar 0]
            (after crawler_a sched_shutdown (boot (small 10) pool_a))
          = Some (after crawler_a [LGen; LMain; LNet 0 idle; LPar 0]
                    (after crawler_a sched_shutdown (boot (small 10) pool_a)))) as Hex
    by (vm_compute; reflexivity).
  split; [exact Hex|]. split; [reflexivity|].
  exact (shutdown_is_final crawler_a _ _ _ Hex eq_refl).
Defined.

Lemma loop_exit_ok_step cls l s s' :
  loop_exit_ok s → step cls l s = Some s' → loop_exit_ok s'.
Proof.
  intros Hinv H. destruct (decide (l = LMain)) as [->|Hl].
  - unfold loop_exit_ok in *. simpl in H. unfold run in H.
    destruct (main s) eqn:Hm; step_cases H; simpl in *; try done; eauto.
  - unfold loop_exit_ok. rewrite (step_main_other _ _ _ _ H Hl).
    intros Hleft. specialize (Hinv Hleft).
    destruct (main s); try done; intros Hp; eapply work_allowed_step; eauto.
Qed.

(** X5. [run] leaves its [while] loop in two ways only: with an exception
    polled from the fatal channel in flight, or with [_work_allowed] false.
    In particular, when [run] returns, [_work_allowed] is false. *)
Theorem run_leaves_loop_only_when_disallowed cls cpu n lim tlim pool s :
  reachable cls (__init__ cpu n lim tlim) pool s →
  left_loop (main s) = true → pending (main s) = None →
  _work_allowed (crawler s) = false.
Proof.
  intros Hr Hleft Hpend.
  assert (loop_exit_ok s) as Hinv.
  { eapply (reachable_invariant _ _ _ loop_exit_ok); [| |exact Hr]; [done|].
    intros. by eapply loop_exit_ok_step. }
  specialize (Hinv Hleft). destruct (main s); try done; by apply Hinv.
Qed.

Lemma run_leaves_loop_only_when_disallowed_witness :
  let s := after crawler_a sched_shutdown (boot (small 10) pool_a) in
  reachable crawler_a (small 10) pool_a s
  ∧ left_loop (main s) = true ∧ pending (main s) = None
  ∧ _work_allowed (crawler s) = false.
Proof.
  assert (reachable crawler_a (small 10) pool_a
            (after crawler_a sched_shutdown (boot (small 10) pool_a))) as Hr
    by (exists sched_shutdown; vm_compute; reflexivity).
  split; [exact Hr|]. split; [reflexivity|]. split; [reflexivity|].
  exact (run_leaves_loop_only_when_disallowed crawler_a 2 1 10 10 pool_a _ Hr
           eq_refl eq_refl).
Defined.

(** ** The thread dictionaries and the two events *)

Lemma alter_fmap_insert {A B} (f : A → B) (g : B → B) (l : list A) i x y :
  l !! i = Some x → g (f x) = f y → alter g i (f <$> l) = f <$> <[i := y]> l.
Proof.
  revert i. induction l as [|a l IH]; intros [|i] Hi Hg; simplify_eq/=.
  - by rewrite Hg.
  - f_equal. by apply IH.
Qed.

Lemma fmap_insert_same {A B} (f : A → B) (l : list A) i x y :
  l !! i = Some x → f y = f x → f <$> <[i := y]> l = f <$> l.
Proof.
  intros Hi Hf. rewrite list_fmap_insert, Hf.
  apply list_insert_id. by rewrite list_lookup_fmap, Hi.
Qed.

Lemma flags_ok_step cls l s s' :
  flags_ok s → step cls l s = Some s' → flags_ok s'.
Proof.
  intros [Hn Hp] H.
  destruct l; step_cases H; split; simpl; try done;
    rewrite ?Hn, ?Hp;
    try (by eapply alter_fmap_insert);
    try (by erewrite fmap_insert_same by done);
    unfold start_threads; by rewrite !fmap_app, !fmap_replicate.
Qed.

Lemma reachable_flags_ok cls cpu n lim tlim pool s :
  reachable cls (__init__ cpu n lim tlim) pool s → flags_ok s.
Proof.
  apply reachable_invariant; [done|]. intros. by eapply flags_ok_step.
Qed.

(** X6. The ['active'] flag of a network thread's dictionary entry is true
    exactly while the thread is between line 86 and line 105 of its loop:
    whatever the fetch did, the [finally] clause clears it, and a thread
    that has taken a request from the queue but has not reached line 86 is
    not marked active yet.  The ['paused'] slot of such an entry is never
    set. *)
Theorem active_flag_marks_iteration cls cpu n lim tlim pool s i w :
  reachable cls (__init__ cpu n lim tlim) pool s →
  _net_threads (crawler s) !! i = Some w →
  ∃ pc, nets s !! i = Some pc ∧ active w = in_iteration pc ∧ paused w = false.
Proof.
  intros Hr Hw. destruct (reachable_flags_ok _ _ _ _ _ _ _ Hr) as [Hn _].
  rewrite Hn, list_lookup_fmap in Hw.
  destruct (nets s !! i) as [pc|]; simplify_eq/=. by exists pc.
Qed.

Lemma active_flag_marks_iteration_witness :
  let s := after crawler_a sched_one_failure (boot (small 10) pool_a) in
  reachable crawler_a (small 10) pool_a s
  ∧ _net_threads (crawler s) !! 0%nat = Some {| active := true; paused := false |}
  ∧ ∃ pc, nets s !! 0%nat = Some pc ∧ true = in_iteration pc ∧ false = false.
Proof.
  assert (reachable crawler_a (small 10) pool_a
            (after crawler_a sched_one_failure (boot (small 10) pool_a))) as Hr
    by (exists sched_one_failure; vm_compute; reflexivity).
  split; [exact Hr|]. split; [reflexivity|].
  exact (active_flag_marks_iteration crawler_a 2 1 10 10 pool_a _ 0%nat
           {| active := true; paused := false |} Hr eq_refl).
Defined.

(** X7. The ['paused'] flag of a parser thread's dictionary entry is true
    exactly while the thread stands at line 127 (waiting on
    [_resume_event]) or has just left it for line 128; the ['active'] slot
    of such an entry is never set. *)
Theorem paused_flag_marks_wait cls cpu n lim tlim pool s j w :
  reachable cls (__init__ cpu n lim tlim) pool s →
  _parser_threads (crawler s) !! j = Some w →
  ∃ pc, parsers s !! j = Some pc ∧ paused w = marked_paused pc ∧ active w = false.
Proof.
  intros Hr Hw. destruct (reachable_flags_ok _ _ _ _ _ _ _ Hr) as [_ Hp].
  rewrite Hp, list_lookup_fmap in Hw.
  destruct (parsers s !! j) as [pc|]; simplify_eq/=. by exists pc.
Qed.

Lemma paused_flag_marks_wait_witness :
  let s := after crawler_a sched_idle_parser (boot (small 10) pool_a) in
  reachable crawler_a (small 10) pool_a s
  ∧ _parser_threads (crawler s) !! 0%nat = Some {| active := false; paused := true |}
  ∧ ∃ pc, parsers s !! 0%nat = Some pc ∧ true = marked_paused pc ∧ false = false.
Proof.
  assert (reachable crawler_a (small 10) pool_a
            (after crawler_a sched_idle_parser (boot (small 10) pool_a))) as Hr
    by (exists sched_idle_parser; vm_compute; reflexivity).
  split; [exact Hr|]. split; [reflexivity|].
  exact (paused_flag_marks_wait crawler_a 2 1 10 10 pool_a _ 0%nat
           {| active := false; paused := true |} Hr eq_refl).
Defined.

Lemma events_ok_step cls l s s' :
  events_ok s → step cls l s = Some s' → events_ok s'.
Proof.
  intros Hinv H. destruct (decide (l = LMain)) as [->|Hl].
  - destruct Hinv as [Hp Hr]. simpl in H. unfold run in H.
    destruct (main s) eqn:Hm; step_cases H; split; simpl in *; done.
  - unfold events_ok. rewrite (step_main_other _ _ _ _ H Hl).
    destruct Hinv as [<- <-]. destruct l; try done; step_cases H; done.
Qed.

(** X8. [_pause_event] is set exactly while [run] is between line 193 and
    line 218, and [_resume_event] exactly while it is between line 219 and
    line 226; outside the quiescence check, in the teardown and after
    [run] has ended both are clear. *)
Theorem events_follow_the_check cls cpu n lim tlim pool s :
  reachable cls (__init__ cpu n lim tlim) pool s →
  is_set (_pause_event (crawler s)) = pause_requested (main s)
  ∧ is_set (_resume_event (crawler s)) = resume_signalled (main s).
Proof.
  intros Hr. eapply (reachable_invariant _ _ _ events_ok); [| |exact Hr]; [done|].
  intros. by eapply events_ok_step.
Qed.

Lemma events_follow_the_check_witness :
  let s := after crawler_one sched_stale_check (boot (small 10) pool_a) in
  reachable crawler_one (small 10) pool_a s
  ∧ is_set (_pause_event (crawler s)) = pause_requested (main s)
  ∧ is_set (_resume_event (crawler s)) = resume_signalled (main s).
Proof.
  assert (reachable crawler_one (small 10) pool_a
            (after crawler_one sched_stale_check (boot (small 10) pool_a))) as Hr
    by (exists sched_stale_check; vm_compute; reflexivity).
  split; [exact Hr|].
  exact (events_follow_the_check crawler_one 2 1 10 10 pool_a _ Hr).
Defined.

(** X9. Before [run] is called there are no threads and nothing has
    happened; from the moment lines 163-178 have run, each pool has exactly
    the configured number of threads and dictionary entries
    ([num_network_threads], none if that is not positive, and
    [max(1, cpu_count // 2)]), and no thread is ever added or removed. *)
Theorem pools_keep_their_size cls cpu n lim tlim pool s :
  reachable cls (__init__ cpu n lim tlim) pool s →
  if decide (main s = R_start)
  then nets s = [] ∧ parsers s = [] ∧ gen s = G_new ∧ log s = []
  else length (nets s) = Z.to_nat n
       ∧ length (_net_threads (crawler s)) = Z.to_nat n
       ∧ length (parsers s) = Z.to_nat (Z.max 1 (cpu / 2))
       ∧ length (_parser_threads (crawler s)) = Z.to_nat (Z.max 1 (cpu / 2)).
Proof.
  intros Hr. destruct (reachable_pools_ok _ _ _ _ _ _ _ Hr) as (_ & _ & _ & Hp).
  rewrite (reachable_config _ _ _ _ _ _ _ Hr) in Hp. simpl in Hp.
  case_decide as Hm.
  - rewrite Hm in Hp. by destruct_and?.
  - destruct (main s); done.
Qed.

Lemma pools_keep_their_size_witness :
  let s := after crawler_a sched_one_failure (boot (__init__ 6 2 10 10) pool_a) in
  reachable crawler_a (__init__ 6 2 10 10) pool_a s
  ∧ if decide (main s = R_start)
    then nets s = [] ∧ parsers s = [] ∧ gen s = G_new ∧ log s = []
    else length (nets s) = Z.to_nat 2
         ∧ length (_net_threads (crawler s)) = Z.to_nat 2
         ∧ length (parsers s) = Z.to_nat (Z.max 1 (6 / 2))
         ∧ length (_parser_threads (crawler s)) = Z.to_nat (Z.max 1 (6 / 2)).
Proof.
  assert (reachable crawler_a (__init__ 6 2 10 10) pool_a
            (after crawler_a sched_one_failure (boot (__init__ 6 2 10 10) pool_a))) as Hr
    by (exists sched_one_failure; vm_compute; reflexivity).
  split; [exact Hr|].
  exact (pools_keep_their_size crawler_a 6 2 10 10 pool_a _ Hr).
Defined.

(** ** Runs with calls of [add_task] *)

Lemma play_invariant cls (I : Sys → Prop) ms :
  (∀ m s s', m ∈ ms → I s → move cls m s = Some s' → I s') →
  ∀ s s', I s → play cls ms s = Some s' → I s'.
Proof.
  induction ms as [|m ms IH]; intros Hstep s s' HI H; simpl in H; [by simplify_eq|].
  destruct (move cls m s) as [s1|] eqn:Hm; simpl in H; [|done].
  eapply IH; [|eapply (Hstep m); [by left|exact HI|exact Hm]|exact H].
  intros m' sa sb Hin. apply Hstep. by right.
Qed.

(** A run without [add_task] is a run of the threads. *)
Lemma play_steps cls sched s : play cls (MStep <$> sched) s = exec cls sched s.
Proof.
  revert s. induction sched as [|l sched IH]; intros s; simpl; [done|].
  destruct (step cls l s); simpl; [apply IH|done].
Qed.

(** What a call of [add_task] changes: the request queue and the log. *)
Lemma add_task_frame task s s' :
  add_task task s = Some s' →
  items (_request_queue (crawler s')) = items (_request_queue (crawler s)) ++ [task]
  ∧ log s' = ObsTaskPut task :: log s
  ∧ heap s' = heap s ∧ gen s' = gen s ∧ nets s' = nets s ∧ parsers s' = parsers s
  ∧ main s' = main s
  ∧ _response_queue (crawler s') = _response_queue (crawler s)
  ∧ _handlers (crawler s') = _handlers (crawler s)
  ∧ config (crawler s') = config (crawler s).
Proof.
  unfold add_task, request_put. intros H.
  destruct (put task (_request_queue (crawler s))) as [q|] eqn:Hput; simplify_eq/=.
  apply put_items in Hput as [-> _]. by split_and!.
Qed.

(** ** Conservation laws *)

Lemma filter_length_all {A} (p : A → bool) (l : list A) :
  (∀ i x, l !! i = Some x → p x = true) → length (List.filter p l) = length l.
Proof.
  induction l as [|a l IH]; intros H; simpl; [done|].
  rewrite (H 0%nat a) by done. simpl. f_equal. apply IH.
  intros i x Hi. by apply (H (S i)).
Qed.

Lemma filter_length_none {A} (p : A → bool) (l : list A) :
  (∀ x, x ∈ l → p x = false) → length (List.filter p l) = 0%nat.
Proof.
  induction l as [|a l IH]; intros H; simpl; [done|].
  rewrite (H a) by (by left). apply IH. intros x Hx. apply H. by right.
Qed.

Lemma fetch_balance_step cls l s s' :
  fetch_balance s → step cls l s = Some s' → fetch_balance s'.
Proof.
  intros Hinv H r. specialize (Hinv r).
  destruct l; step_cases H; queue_eqs;
    unfold task_puts, queued, taken, fetches, count in *; simpl in *;
    try note_insert (awaits_fetch r); simpl in *;
    repeat match goal with
    | H : items _ = _ |- _ => rewrite H in *
    end;
    rewrite ?List.filter_app, ?length_app, ?filter_length_replicate by done;
    simpl in *; unfold is_request in *;
    repeat case_bool_decide; simplify_eq/=; try done; try lia.
Qed.

(** X10. Every put of a request on the request queue is followed by
    exactly one call of the transport for it: the puts of [r] so far (by
    the generator, by handlers' yields and by the re-enqueue of line 99)
    are as many as the copies of [r] still in the queue, plus the workers
    that have taken [r] and stand before line 90, plus the fetches of [r]
    made.  No put is lost and none is fetched twice. *)
Theorem every_put_is_fetched_once cls cpu n lim tlim pool s r :
  reachable cls (__init__ cpu n lim tlim) pool s →
  task_puts (Some r) s = (queued r s + taken r s + fetches r s)%nat.
Proof.
  intros Hr. revert r.
  eapply (reachable_invariant _ _ _ fetch_balance); [| |exact Hr]; [done|].
  intros. by eapply fetch_balance_step.
Qed.

Lemma every_put_is_fetched_once_witness :
  let s := after crawler_a sched_requeue_full (boot (small 10) pool_a) in
  reachable crawler_a (small 10) pool_a s
  ∧ task_puts (Some 0%nat) s = (queued 0 s + taken 0 s + fetches 0 s)%nat
  ∧ task_puts (Some 1%nat) s = (queued 1 s + taken 1 s + fetches 1 s)%nat.
Proof.
  assert (reachable crawler_a (small 10) pool_a
            (after crawler_a sched_requeue_full (boot (small 10) pool_a))) as Hr
    by (exists sched_requeue_full; vm_compute; reflexivity).
  split; [exact Hr|]. split.
  - exact (every_put_is_fetched_once crawler_a 2 1 10 10 pool_a _ 0%nat Hr).
  - exact (every_put_is_fetched_once crawler_a 2 1 10 10 pool_a _ 1%nat Hr).
Defined.







Lemma store_bound_mono r lo hi hi' (l : list NetPC) :
  hi ≤ hi' → Forall (store_bound r lo hi) l → Forall (store_bound r lo hi') l.
Proof.
  intros Hle Hst. eapply Forall_impl; [exact Hst|]. intros pc Hpc.
  destruct pc; simpl in *; try done. intros Hr. specialize (Hpc Hr). lia.
Qed.

Lemma try_bounds_step cls pool l s s' :
  try_bounds pool s → step cls l s = Some s' → try_bounds pool s'.
Proof.
  intros Hinv H r. specialize (Hinv r).
  destruct (pool !! r) as [rq0|] eqn:Hpool.
  2:{ destruct l; step_cases H; simpl in *; try done.
      all: match goal with
           | H : alter _ _ _ !! _ = _ |- _ => rewrite lookup_alter in H
           end;
        case_decide; simplify_eq/=; try done.
      all: match goal with
           | H : heap ?s !! ?r = None, H' : _ <$> heap ?s !! ?r = _ |- _ =>
               by rewrite H in H'
           end. }
  destruct (heap s !! r) as [rq|] eqn:Hheap; [|done].
  destruct Hinv as (Hurl & Htag & [Hlo Hhi] & Hst).
  destruct l; step_cases H;
    unfold transient_failures, uncounted, count in *; simpl in *;
    try note_insert (about_to_count r); simpl in *;
    rewrite ?List.filter_app, ?length_app, ?filter_length_replicate by done;
    rewrite ?Nat.add_0_r;
    repeat match goal with
    | H : is_NetworkError _ = _ |- _ => rewrite H in *; clear H
    end;
    rewrite ?andb_true_r, ?andb_false_r in *.
  all: rewrite ?Hheap.
  all: try (by split_and!).
  all: try (split_and!; try done; apply Forall_insert; [exact Hst|]; done).
  all: try (repeat case_bool_decide; simplify_eq/=;
            (split_and!; try done; try lia);
            apply Forall_insert;
            [eapply store_bound_mono; [|exact Hst]; lia
            |simpl; try done; intros; simplify_eq; lia]).
  - case_bool_decide; simplify_eq/=;
      (split_and!; [done|done|lia|lia|]);
      (apply Forall_insert; [|done]);
      (eapply store_bound_mono; [|exact Hst]); lia.
  - case_bool_decide; simplify_eq/=;
      (split_and!; [done|done|lia|lia|]);
      (apply Forall_insert; [eapply store_bound_mono; [|exact Hst]; lia|]);
      simpl; intros; simplify_eq; lia.
  - rewrite lookup_alter in H.
    pose proof (Forall_lookup_1 _ _ _ _ Hst Heqo) as Hv. simpl in Hv.
    case_decide; simplify_eq/=.
    + rewrite Hheap in H. simplify_eq/=. specialize (Hv eq_refl).
      rewrite bool_decide_eq_true_2 in H1 by done.
      split_and!; [done|done|lia|lia|].
      apply Forall_insert; [|done].
      eapply store_bound_mono; [|exact Hst]. lia.
    + rewrite bool_decide_eq_false_2 in H1 by done.
      split_and!; [done|done|lia|lia|].
      apply Forall_insert; [|done].
      eapply store_bound_mono; [|exact Hst]. lia.
  - rewrite lookup_alter in H.
    case_decide; simplify_eq/=; try (rewrite Hheap in H); try done; congruence.
  - split_and!; [done|done|lia|lia|].
    apply Forall_app_2; [done|]. by apply Forall_replicate.
Qed.

Lemma try_bounds_boot c pool : try_bounds pool (boot c pool).
Proof.
  intros r. simpl. destruct (pool !! r); [|done].
  unfold transient_failures, uncounted, count. simpl. split_and!; try done; lia.
Qed.

Lemma try_bounds_add pool task s s' :
  try_bounds pool s → add_task task s = Some s' → try_bounds pool s'.
Proof.
  intros Hinv (_ & Hlog & Hheap & _ & Hnets & _)%add_task_frame r.
  specialize (Hinv r). unfold transient_failures, uncounted, count in *.
  rewrite Hlog, Hheap, Hnets. simpl. done.
Qed.

(** X12. The engine changes nothing of a [Request] object but its
    [network_try_count]: [url] and [tag] stay as they were, the count never
    falls below its first value, and it never counts more than the fetches
    of that object that raised a [NetworkError], less those a worker has
    caught and not written back yet (it stands in line 92).  The [+=] of
    line 92 reads and writes in two steps, so with the same object in the
    hands of two workers a failure can go uncounted: the bound is not an
    equality.  This holds in every run, also with calls of [add_task]. *)
Theorem try_count_never_overcounts cls c pool ms s r rq0 :
  play cls ms (boot c pool) = Some s → pool !! r = Some rq0 →
  ∃ rq, heap s !! r = Some rq ∧ url rq = url rq0 ∧ tag rq = tag rq0
    ∧ network_try_count rq0 ≤ network_try_count rq
    ∧ network_try_count rq + Z.of_nat (uncounted r s)
      ≤ network_try_count rq0 + Z.of_nat (transient_failures r s).
Proof.
  intros Hplay Hpool.
  assert (try_bounds pool s) as Hb.
  { revert Hplay. apply (play_invariant cls (try_bounds pool)).
    - intros [l|task] s1 s2 _ Hinv H; simpl in H;
        [by eapply try_bounds_step|by eapply try_bounds_add].
    - apply try_bounds_boot. }
  specialize (Hb r). rewrite Hpool in Hb.
  destruct (heap s !! r) as [rq|]; [|done].
  destruct Hb as (? & ? & [? ?] & _). exists rq. split_and!; try done; lia.
Qed.

Lemma try_count_never_overcounts_witness :
  let s := default (boot (__init__ 2 2 10 10) pool_a)
             (play crawler_a moves_shared_request (boot (__init__ 2 2 10 10) pool_a)) in
  play crawler_a moves_shared_request (boot (__init__ 2 2 10 10) pool_a) = Some s
  ∧ pool_a !! 0%nat = Some (mkRequest "http://x/0" "a" 0)
  ∧ transient_failures 0%nat s = 2%nat ∧ uncounted 0%nat s = 0%nat
  ∧ network_try_count <$> heap s !! 0%nat = Some 1
  ∧ ∃ rq, heap s !! 0%nat = Some rq ∧ url rq = "http://x/0" ∧ tag rq = "a"
      ∧ 0 ≤ network_try_count rq
      ∧ network_try_count rq + Z.of_nat (uncounted 0%nat s)
        ≤ 0 + Z.of_nat (transient_failures 0%nat s).
Proof.
  assert (play crawler_a moves_shared_request (boot (__init__ 2 2 10 10) pool_a)
          = Some (default (boot (__init__ 2 2 10 10) pool_a)
                    (play crawler_a moves_shared_request
                       (boot (__init__ 2 2 10 10) pool_a)))) as Hplay
    by (vm_compute; reflexivity).
  split; [exact Hplay|]. split; [reflexivity|].
  split; [vm_compute; reflexivity|]. split; [vm_compute; reflexivity|].
  split; [vm_compute; reflexivity|].
  exact (try_count_never_overcounts crawler_a (__init__ 2 2 10 10) pool_a _ _ 0%nat
           (mkRequest "http://x/0" "a" 0) Hplay eq_refl).
Defined.

(** ** Where requests come from, and why parsers die *)

Lemma provenance_ok_step (P : ReqId → Prop) cls l s s' :
  (∀ r, handed_out cls r → P r) →
  provenance_ok P cls s → step cls l s = Some s' → provenance_ok P cls s'.
Proof.
  intros HP (Hh & Hq & Hg & Hn & Hp & Hl) H.
  destruct l; step_cases H; queue_eqs; unfold provenance_ok; simpl in *.
  all: split_and!; try done.
  all: try (intros t h' Ht; by eapply register_handlers_from).
  all: try (intros r' Hin;
            match goal with
            | _ => by apply Hq
            | H : items _ = _ :: _ |- _ => apply Hq; rewrite H; by right
            | H : items _ = _ ++ [_] |- _ =>
                rewrite H in Hin;
                apply elem_of_app in Hin as [Hin|Hin%list_elem_of_singleton];
                [by apply Hq|simplify_eq]
            end).
  all: try (intros i' pc' r' [(-> & ? & ?)|[? ?]]%list_lookup_insert_Some Hpc;
            [|by eauto]; simplify_eq/=; try case_bool_decide; simplify_eq/=).
  all: try (intros j' pc' [(-> & ? & ?)|[? ?]]%list_lookup_insert_Some;
            [|by eauto]; simplify_eq/=).
  all: try (intros i' r' tr' [?|?]%elem_of_cons; [|by eauto]; simplify_eq/=).
  all: try done.
  all: try (intros ? ? [= <- <-]).
  all: try match goal with
       | H : isinstance_Request ?t = Some _ |- _ => destruct t; simplify_eq/=
       end.
  all: try (apply HP; left; by eexists).
  all: try (match goal with
            | H : nets _ !! _ = Some _ |- _ =>
                eapply Hn; [exact H | simpl; by rewrite bool_decide_eq_true_2]
            end).
  all: try (by eapply Hg).
  all: try (match goal with
            | H : parsers _ !! _ = Some _ |- _ =>
                pose proof (Hp _ _ H) as Hy; simpl in Hy
            end).
  all: try (destruct_and?; done).
  - apply Hq.
    match goal with H : items _ = _ :: _ |- _ => rewrite H end. by left.
  - intros r0 Hin.
    match goal with
    | H : _handlers _ !! _ = Some _ |- _ => destruct (Hh _ _ H) as [key Hkey]
    end.
    apply HP. right. by exists key, h, r, resp, ys, fin.
  - split; [apply Hy; by left | intros r' Hin; apply Hy; by right].
  - intros i pc r [?|[_ Hrep]]%lookup_app_Some Hpc; [by eauto|].
    apply lookup_replicate in Hrep as [-> _]. done.
  - intros j pc [?|[_ Hrep]]%lookup_app_Some; [by eauto|].
    apply lookup_replicate in Hrep as [-> _]. done.
Qed.

Lemma provenance_ok_add (P : ReqId → Prop) cls task s s' :
  (∀ r, task = Some r → P r) →
  provenance_ok P cls s → add_task task s = Some s' → provenance_ok P cls s'.
Proof.
  intros HP (Hh & Hq & Hg & Hn & Hp & Hl)
    (Hitems & Hlog & _ & Hgen & Hnets & Hpars & _ & _ & Hhand & _)%add_task_frame.
  unfold provenance_ok. rewrite Hitems, Hlog, Hgen, Hnets, Hpars, Hhand.
  split_and!; try done.
  - intros r [?|?%list_elem_of_singleton]%elem_of_app; [by apply Hq|by apply HP].
  - intros i r tr [?|?]%elem_of_cons; [done|by eapply Hl].
Qed.

Lemma provenance_ok_boot P cls cpu n lim tlim pool :
  provenance_ok P cls (boot (__init__ cpu n lim tlim) pool).
Proof.
  split_and!; simpl; try done.
  - intros r Hin. by apply elem_of_nil in Hin.
  - intros i r tr Hin. by apply elem_of_nil in Hin.
Qed.

(** X13. The transport is only ever called on requests that user code
    handed to the engine: every request fetched was yielded by the task
    generator, yielded by a registered handler's iterable, or passed to
    [add_task]; the engine makes up no request of its own. *)
Theorem fetched_requests_come_from_user_code cls cpu n lim tlim pool ms s i r tr :
  play cls ms (boot (__init__ cpu n lim tlim) pool) = Some s →
  ObsFetch i r tr ∈ log s → handed_out cls r ∨ MAdd (Some r) ∈ ms.
Proof.
  intros Hplay.
  assert (provenance_ok (known_request cls ms) cls s) as (_ & _ & _ & _ & _ & Hl);
    [|by apply Hl].
  revert Hplay.
  apply (play_invariant cls (provenance_ok (known_request cls ms) cls)).
  - intros [l|task] s1 s2 Hin Hinv H; simpl in H.
    + eapply provenance_ok_step; [|exact Hinv|exact H]. intros r0 Hr0. by left.
    + eapply provenance_ok_add; [|exact Hinv|exact H]. intros r0 ->. by right.
  - apply provenance_ok_boot.
Qed.

Lemma fetched_requests_come_from_user_code_witness :
  let s := default (boot (small 10) pool_a)
             (play crawler_base moves_added_task (boot (small 10) pool_a)) in
  play crawler_base moves_added_task (boot (small 10) pool_a) = Some s
  ∧ ObsFetch 0%nat 3%nat (Ok 9%nat) ∈ log s
  ∧ ¬ handed_out crawler_base 3%nat
  ∧ (handed_out crawler_base 3%nat ∨ MAdd (Some 3%nat) ∈ moves_added_task).
Proof.
  assert (play crawler_base moves_added_task (boot (small 10) pool_a)
          = Some (default (boot (small 10) pool_a)
                    (play crawler_base moves_added_task (boot (small 10) pool_a))))
    as Hplay by (vm_compute; reflexivity).
  assert (ObsFetch 0%nat 3%nat (Ok 9%nat)
            ∈ log (default (boot (small 10) pool_a)
                     (play crawler_base moves_added_task (boot (small 10) pool_a))))
    as Hin by (vm_compute; apply list_elem_of_here).
  split; [exact Hplay|]. split; [exact Hin|]. split.
  - intros [[k Hk]|(key & h & r' & resp & ys & fin & Hmem & _)]; [done|].
    by apply elem_of_nil in Hmem.
  - exact (fetched_requests_come_from_user_code crawler_base 2 1 10 10 pool_a
             _ _ _ _ _ Hplay Hin).
Defined.

Lemma crash_ok_step cls pool l s s' :
  pools_ok s → try_bounds pool s → crash_ok cls pool s →
  step cls l s = Some s' → crash_ok cls pool s'.
Proof.
  intros Hpools Hbal [Hh Hp] H.
  assert (∀ j pc, parsers s !! j = Some pc → main s ≠ R_start) as Hstarted.
  { intros j pc Hj Hm. destruct Hpools as (_ & _ & _ & Hpools).
    rewrite Hm in Hpools. destruct Hpools as (_ & Hnil & _).
    by rewrite Hnil in Hj. }
  destruct l; step_cases H; unfold crash_ok; simpl in *.
  all: split; [try (intros _; apply Hh; congruence); try done|].
  all: try done.
  all: try (intros j' pc' [(-> & ? & ?)|[? ?]]%list_lookup_insert_Some;
            [|by eauto]; simplify_eq/=; try done).
  all: try (intros j pc [?|[_ Hrep]]%lookup_app_Some; [by eauto|];
            apply lookup_replicate in Hrep as [-> _]; done).
  match goal with
  | Hd : parsers s !! _ = Some (P_dispatch ?r _), Hr : heap s !! ?r = Some ?rq,
    Hn : _handlers _ !! _ = None |- _ =>
      specialize (Hbal r); rewrite Hr in Hbal;
      rewrite (Hh (Hstarted _ _ Hd)) in Hn;
      destruct (pool !! r) as [rq0|] eqn:Hpool; [|done];
      destruct Hbal as (_ & Htag & _); rewrite Htag in *;
      by exists r, rq0
  end.
Qed.

(** X14. The only way a parser thread dies is the [KeyError] of line 133,
    raised for the tag of one of the requests when no handler is
    registered for it; an exception of a handler, of its iterable or of
    the assertion of line 141 never ends the thread.  Hence, if every
    request's tag has a registered handler, no parser thread ever dies. *)
Theorem parser_dies_only_of_unknown_tag cls cpu n lim tlim pool s :
  reachable cls (__init__ cpu n lim tlim) pool s →
  (∀ j ex, parsers s !! j = Some (P_crashed ex) →
     ∃ r rq, pool !! r = Some rq ∧ ex = KeyError (tag rq)
             ∧ register_handlers (members cls) !! tag rq = None)
  ∧ ((∀ r rq, pool !! r = Some rq →
        is_Some (register_handlers (members cls) !! tag rq)) →
     ∀ j pc, parsers s !! j = Some pc → ∀ ex, pc ≠ P_crashed ex).
Proof.
  intros Hr.
  assert (pools_ok s ∧ try_bounds pool s ∧ crash_ok cls pool s) as (_ & _ & _ & Hc).
  { eapply (reachable_invariant _ _ _
             (λ s, pools_ok s ∧ try_bounds pool s ∧ crash_ok cls pool s));
      [| |exact Hr].
    - split; [apply pools_ok_boot|split; [apply try_bounds_boot|]].
      split; [by intros []|]. by intros j pc Hj.
    - intros l s1 s2 (Hp & Hb & Hc) H.
      split; [by eapply pools_ok_step|split];
        [by eapply try_bounds_step | by eapply crash_ok_step]. }
  split.
  - intros j ex Hj. apply (Hc _ _ Hj).
  - intros Hall j pc Hj ex ->. destruct (Hc _ _ Hj) as (r & rq & Hp & _ & Hnone).
    destruct (Hall _ _ Hp) as [h Hh]. congruence.
Qed.

Lemma parser_dies_only_of_unknown_tag_witness :
  let s := after crawler_a sched_untagged (boot (small 10) pool_untagged) in
  reachable crawler_a (small 10) pool_untagged s
  ∧ parsers s !! 0%nat = Some (P_crashed (KeyError "zzz"))
  ∧ ∃ r rq, pool_untagged !! r = Some rq ∧ KeyError "zzz" = KeyError (tag rq)
            ∧ register_handlers (members crawler_a) !! tag rq = None.
Proof.
  assert (reachable crawler_a (small 10) pool_untagged
            (after crawler_a sched_untagged (boot (small 10) pool_untagged))) as Hr
    by (exists sched_untagged; vm_compute; reflexivity).
  split; [exact Hr|]. split; [reflexivity|].
  exact (proj1 (parser_dies_only_of_unknown_tag crawler_a 2 1 10 10 pool_untagged _ Hr)
           0%nat (KeyError "zzz") eq_refl).
Defined.

(** ** No network thread, and a full queue at line 99 *)

Lemma no_fetch_step cls l s s' :
  nets s = [] → no_fetch s → step cls l s = Some s' → no_fetch s'.
Proof.
  intros Hnil Hinv H i r tr Hin.
  destruct l; step_cases H; simpl in *;
    try (by eapply Hinv);
    try (apply elem_of_cons in Hin as [?|?]; [done|by eapply Hinv]).
  all: by rewrite Hnil in *.
Qed.

(** X15. With [num_network_threads <= 0] the request queue is unbounded
    (no [put] on it ever blocks) and [run] starts no network thread, so the
    transport is never called, whatever the generator yields. *)
Theorem no_network_thread_no_fetch cls cpu n lim tlim pool s :
  n ≤ 0 → reachable cls (__init__ cpu n lim tlim) pool s →
  nets s = [] ∧ (∀ r, fetches r s = 0%nat)
  ∧ (∀ x, is_Some (put x (_request_queue (crawler s)))).
Proof.
  intros Hn Hr.
  pose proof (reachable_config _ _ _ _ _ _ _ Hr) as Hcfg.
  assert (∀ s, reachable cls (__init__ cpu n lim tlim) pool s → nets s = []) as Hnil.
  { intros s1 Hr1. destruct (reachable_pools_ok _ _ _ _ _ _ _ Hr1) as (_ & _ & _ & Hp).
    rewrite (reachable_config _ _ _ _ _ _ _ Hr1) in Hp. simpl in Hp.
    destruct (main s1); destruct Hp as (Hlen & _); try done;
      apply length_zero_iff_nil; lia. }
  assert (reachable cls (__init__ cpu n lim tlim) pool s ∧ no_fetch s) as [_ Hno].
  { eapply (reachable_invariant _ _ _
             (λ s, reachable cls (__init__ cpu n lim tlim) pool s ∧ no_fetch s));
      [| |exact Hr].
    - split; [by exists []|]. intros i r tr Hin. by apply elem_of_nil in Hin.
    - intros l s1 s2 [Hr1 Hno] H. split; [by eapply reachable_step|].
      eapply no_fetch_step; eauto. }
  split_and!; [by apply Hnil| |].
  - intros r. unfold fetches, count. apply filter_length_none.
    intros [] Hin; try done. simpl. case_bool_decide; [|done]. subst.
    by apply Hno in Hin.
  - intros x. destruct (reachable_pools_ok _ _ _ _ _ _ _ Hr) as (_ & Hmax & _).
    rewrite Hcfg in Hmax. simpl in Hmax.
    rewrite put_unbounded by lia. by eexists.
Qed.

Lemma no_network_thread_no_fetch_witness :
  let s := after crawler_a [LMain; LGen; LGen; LGen; LGen; LGen; LGen]
             (boot no_threads pool_a) in
  0 ≤ 0 ∧ reachable crawler_a no_threads pool_a s
  ∧ nets s = [] ∧ (∀ r, fetches r s = 0%nat)
  ∧ (∀ x, is_Some (put x (_request_queue (crawler s)))).
Proof.
  assert (reachable crawler_a no_threads pool_a
            (after crawler_a [LMain; LGen; LGen; LGen; LGen; LGen; LGen]
               (boot no_threads pool_a))) as Hr
    by (exists [LMain; LGen; LGen; LGen; LGen; LGen; LGen]; vm_compute; reflexivity).
  split; [lia|]. split; [exact Hr|].
  exact (no_network_thread_no_fetch crawler_a 2 0 10 10 pool_a _ ltac:(lia) Hr).
Defined.

Lemma requeue_deadlock_step cls l s s' :
  pools_ok s → requeue_deadlock s → step cls l s = Some s' →
  requeue_deadlock s' ∧ nets s' = nets s
  ∧ _request_queue (crawler s') = _request_queue (crawler s).
Proof.
  intros Hpools (Hfull & Hne & Hall) H.
  assert (main s ≠ R_start) as Hstarted.
  { intros Hm. destruct Hpools as (_ & _ & _ & Hpools).
    rewrite Hm in Hpools. by destruct Hpools as (Hnil & _). }
  assert (∀ x q, put x (_request_queue (crawler s)) = Some q → False) as Hput.
  { intros x q. unfold put. by rewrite Hfull. }
  destruct l; step_cases H; try done;
    try (exfalso; by eapply Hput);
    try (match goal with
         | H : nets s !! _ = Some _ |- _ => by destruct (Hall _ _ H)
         end);
    by repeat split.
Qed.

(** X16. The re-enqueue of line 99 can deadlock the engine: once every
    network worker stands at line 99 before a full request queue, no
    worker ever moves again and the queue keeps its contents, whatever the
    other threads do (the workers are the only consumers of that queue);
    [run] then never returns nor raises, since its teardown cannot put
    its sentinels. *)
Theorem requeue_on_full_queue_is_stuck cls cpu n lim tlim pool s sched s' :
  reachable cls (__init__ cpu n lim tlim) pool s → requeue_deadlock s →
  exec cls sched s = Some s' →
  requeue_deadlock s' ∧ nets s' = nets s
  ∧ _request_queue (crawler s') = _request_queue (crawler s)
  ∧ run_over (main s') = false.
Proof.
  intros Hr Hd Hex.
  assert (pools_ok s' ∧ requeue_deadlock s' ∧ nets s' = nets s
          ∧ _request_queue (crawler s') = _request_queue (crawler s))
    as (_ & Hd' & Hn & Hq).
  { revert Hex.
    apply (exec_invariant cls
             (λ s1, pools_ok s1 ∧ requeue_deadlock s1 ∧ nets s1 = nets s
                    ∧ _request_queue (crawler s1) = _request_queue (crawler s))).
    - intros l s1 s2 (Hp & Hd1 & Hn1 & Hq1) H.
      destruct (requeue_deadlock_step _ _ _ _ Hp Hd1 H) as (? & ? & ?).
      split_and!; [by eapply pools_ok_step|done|congruence|congruence].
    - split_and!; try done. by eapply reachable_pools_ok. }
  split_and!; try done.
  destruct (run_over (main s')) eqn:Hover; [|done]. exfalso.
  pose proof (reachable_exec _ _ _ _ _ _ Hr Hex) as Hr'.
  destruct (reachable_teardown_ok _ _ _ _ _ _ _ Hr') as [_ (_ & _ & Ht)].
  destruct Hd' as (_ & Hne & Hall).
  destruct (nets s') as [|pc rest] eqn:Hnets; [done|].
  destruct (Hall 0%nat pc eq_refl) as [r ->].
  assert (all_nets_done s') as Hdone by (destruct (main s'); try done; by destruct_and?).
  specialize (Hdone 0%nat (N_requeue r)). rewrite Hnets in Hdone.
  by specialize (Hdone eq_refl).
Qed.

Lemma requeue_on_full_queue_is_stuck_witness :
  let s := after crawler_a sched_requeue_full (boot (small 10) pool_a) in
  let s' := after crawler_a [LPar 0; LMain; LMain; LPar 0] s in
  reachable crawler_a (small 10) pool_a s ∧ requeue_deadlock s
  ∧ exec crawler_a [LPar 0; LMain; LMain; LPar 0] s = Some s'
  ∧ requeue_deadlock s' ∧ nets s' = nets s
  ∧ _request_queue (crawler s') = _request_queue (crawler s)
  ∧ run_over (main s') = false.
Proof.
  assert (reachable crawler_a (small 10) pool_a
            (after crawler_a sched_requeue_full (boot (small 10) pool_a))) as Hr
    by (exists sched_requeue_full; vm_compute; reflexivity).
  assert (requeue_deadlock
            (after crawler_a sched_requeue_full (boot (small 10) pool_a))) as Hd.
  { split; [reflexivity|]. split; [discriminate|].
    intros [|i] pc Hi; [|discriminate]. exists 0%nat.
    apply (inj Some). symmetry. exact Hi. }
  assert (exec crawler_a [LPar 0; LMain; LMain; LPar 0]
            (after crawler_a sched_requeue_full (boot (small 10) pool_a))
          = Some (after crawler_a [LPar 0; LMain; LMain; LPar 0]
                    (after crawler_a sched_requeue_full (boot (small 10) pool_a))))
    as Hex by (vm_compute; reflexivity).
  split; [exact Hr|]. split; [exact Hd|]. split; [exact Hex|].
  exact (requeue_on_full_queue_is_stuck crawler_a 2 1 10 10 pool_a _ _ _ Hr Hd Hex).
Defined.

(** While the workers are stuck at line 99 no step calls the transport or
    the rejection hook. *)
Lemma requeue_deadlock_quiet cls l s s' r :
  pools_ok s → requeue_deadlock s → step cls l s = Some s' →
  fetches r s' = fetches r s ∧ rejections r s' = rejections r s
  ∧ (fails_only r s → fails_only r s').
Proof.
  intros Hpools (Hfull & Hne & Hall) H.
  assert (main s ≠ R_start) as Hstarted.
  { intros Hm. destruct Hpools as (_ & _ & _ & Hpools).
    rewrite Hm in Hpools. by destruct Hpools as (Hnil & _). }
  assert (∀ x q, put x (_request_queue (crawler s)) = Some q → False) as Hput.
  { intros x q. unfold put. by rewrite Hfull. }
  destruct l; step_cases H; try done;
    try (exfalso; by eapply Hput);
    try (match goal with
         | H : nets s !! _ = Some _ |- _ => by destruct (Hall _ _ H)
         end);
    unfold fetches, rejections, fails_only, count; simpl;
    (split_and!; [done|done|]); try done;
    (intros Hf i' tr' [?|?]%elem_of_cons; [done|by eapply Hf]).
Qed.

(** C2, as stated, fails.  Request 0 has try count 0, the limit is 10 and
    the one fetch of request 0 raised a [NetworkError]; the worker stands
    at line 99 before the queue that the generator has refilled.  From
    then on, whatever the threads do, request 0 has been fetched once, not
    eleven times, and the rejection hook is never called. *)
Lemma failing_request_stuck_at_requeue :
  let s := after crawler_a sched_requeue_full (boot (small 10) pool_a) in
  reachable crawler_a (small 10) pool_a s
  ∧ network_try_count <$> pool_a !! 0%nat = Some 0
  ∧ network_try_limit (config (crawler s)) = 10
  ∧ ∀ sched s', exec crawler_a sched s = Some s' →
      fails_only 0%nat s' ∧ fetches 0%nat s' = 1%nat
      ∧ rejections 0%nat s' = 0%nat ∧ nets s' = [N_requeue 0%nat].
Proof.
  assert (reachable crawler_a (small 10) pool_a
            (after crawler_a sched_requeue_full (boot (small 10) pool_a))) as Hr
    by (exists sched_requeue_full; vm_compute; reflexivity).
  assert (requeue_deadlock
            (after crawler_a sched_requeue_full (boot (small 10) pool_a))) as Hd.
  { split; [reflexivity|]. split; [discriminate|].
    intros [|i] pc Hi; [|discriminate]. exists 0%nat.
    apply (inj Some). symmetry. exact Hi. }
  split; [exact Hr|]. split; [reflexivity|]. split; [reflexivity|].
  intros sched s' Hex.
  assert (pools_ok s' ∧ requeue_deadlock s' ∧ fails_only 0%nat s'
          ∧ fetches 0%nat s' = 1%nat ∧ rejections 0%nat s' = 0%nat
          ∧ nets s' = [N_requeue 0%nat]) as (_ & _ & ? & ? & ? & ?); [|done].
  revert Hex.
  apply (exec_invariant crawler_a
           (λ s1, pools_ok s1 ∧ requeue_deadlock s1 ∧ fails_only 0%nat s1
                  ∧ fetches 0%nat s1 = 1%nat ∧ rejections 0%nat s1 = 0%nat
                  ∧ nets s1 = [N_requeue 0%nat])).
  - intros l s1 s2 (Hp & Hd1 & Hf & Hn1 & Hrj & Hnets) H.
    destruct (requeue_deadlock_step _ _ _ _ Hp Hd1 H) as (? & ? & ?).
    destruct (requeue_deadlock_quiet _ _ _ _ 0%nat Hp Hd1 H) as (? & ? & ?).
    split_and!; [by eapply pools_ok_step|done|eauto|congruence..].
  - split_and!; [by eapply reachable_pools_ok|exact Hd| |reflexivity..].
    intros i tr Hin. vm_compute in Hin.
    repeat (apply elem_of_cons in Hin as [Hin|Hin]; [simplify_eq; by eauto|]).
    by apply elem_of_nil in Hin.
Qed.

(** ** Teardown with cooperative workers *)

Lemma put_room {A} (x : A) (q : Queue A) :
  qsize q < maxsize q ∨ maxsize q ≤ 0 →
  put x q = Some {| maxsize := maxsize q; items := items q ++ [x] |}.
Proof.
  intros H. destruct (put x q) as [q'|] eqn:Hp.
  - unfold put in Hp. case_match; by simplify_eq.
  - apply put_blocks_iff in Hp. lia.
Qed.

Lemma replicate_snoc {A} (n : nat) (x : A) : replicate n x ++ [x] = replicate (S n) x.
Proof. induction n as [|n IH]; simpl; [done|]. by rewrite IH. Qed.

Lemma net_sentinels cls s0 pend pq ns ps d :
  maxsize (_request_queue (crawler s0)) = num_network_threads (config (crawler s0)) →
  ∀ k s, (k + d = Z.to_nat (num_network_threads (config (crawler s0))))%nat →
    shape s0 (R_sent_net k pend) (replicate k None) pq ns ps s →
    ∃ s', exec cls (replicate (S d) LMain) s = Some s'
      ∧ shape s0 (R_sent_par 0 pend)
          (replicate (Z.to_nat (num_network_threads (config (crawler s0)))) None)
          pq ns ps s'.
Proof.
  intros Hmax. induction d as [|d IH]; intros k s Hk
    (Hm & Hrq & Hpq & Hns & Hps & Hcfg & Hmr & Hmp & Hf).
  - eexists. split.
    { eapply exec_step; [|reflexivity]. simpl. unfold run. rewrite Hm, Hcfg.
      destruct (Z.of_nat k <? _) eqn:Hlt; [apply Z.ltb_lt in Hlt; lia|].
      reflexivity. }
    rewrite Nat.add_0_r in Hk. subst k. by repeat split.
  - assert (run cls s = Some (set_main (R_sent_net (S k) pend)
              (emit (ObsTaskPut None)
                 (upd_crawler (with_request_queue
                    {| maxsize := maxsize (_request_queue (crawler s));
                       items := items (_request_queue (crawler s)) ++ [None] |}) s))))
      as Hstep.
    { unfold run. rewrite Hm, Hcfg.
      destruct (Z.of_nat k <? _) eqn:Hlt; [|apply Z.ltb_ge in Hlt; lia].
      unfold request_put. rewrite put_room; [done|].
      unfold qsize. rewrite Hrq, length_replicate, Hmr, Hmax.
      apply Z.ltb_lt in Hlt. lia. }
    edestruct (IH (S k)) as (s' & Hexec & Hshape); [lia| |].
    2:{ exists s'. split; [|exact Hshape]. eapply exec_step; [exact Hstep|exact Hexec]. }
    repeat split; simpl; try done. by rewrite Hrq, replicate_snoc.
Qed.

Lemma parser_sentinels cls s0 pend rq ns ps d :
  maxsize (_response_queue (crawler s0)) = num_parsers (config (crawler s0)) →
  ∀ k s, (k + d = Z.to_nat (num_parsers (config (crawler s0))))%nat →
    shape s0 (R_sent_par k pend) rq (replicate k None) ns ps s →
    ∃ s', exec cls (replicate (S d) LMain) s = Some s'
      ∧ shape s0 (R_join_net 0 pend) rq
          (replicate (Z.to_nat (num_parsers (config (crawler s0)))) None)
          ns ps s'.
Proof.
  intros Hmax. induction d as [|d IH]; intros k s Hk
    (Hm & Hrq & Hpq & Hns & Hps & Hcfg & Hmr & Hmp & Hf).
  - eexists. split.
    { eapply exec_step; [|reflexivity]. simpl. unfold run. rewrite Hm, Hcfg.
      destruct (Z.of_nat k <? _) eqn:Hlt; [apply Z.ltb_lt in Hlt; lia|].
      reflexivity. }
    rewrite Nat.add_0_r in Hk. subst k. by repeat split.
  - assert (run cls s = Some (set_main (R_sent_par (S k) pend)
              (emit (ObsResultPut None)
                 (upd_crawler (with_response_queue
                    {| maxsize := maxsize (_response_queue (crawler s));
                       items := items (_response_queue (crawler s)) ++ [None] |}) s))))
      as Hstep.
    { unfold run. rewrite Hm, Hcfg.
      destruct (Z.of_nat k <? _) eqn:Hlt; [|apply Z.ltb_ge in Hlt; lia].
      unfold response_put. rewrite put_room; [done|].
      unfold qsize. rewrite Hpq, length_replicate, Hmp, Hmax.
      apply Z.ltb_lt in Hlt. lia. }
    edestruct (IH (S k)) as (s' & Hexec & Hshape); [lia| |].
    2:{ exists s'. split; [|exact Hshape]. eapply exec_step; [exact Hstep|exact Hexec]. }
    repeat split; simpl; try done. by rewrite Hpq, replicate_snoc.
Qed.

Lemma insert_replicate_next {A} (k d : nat) (x y : A) :
  <[k := x]> (replicate k x ++ replicate (S d) y)
  = replicate (S k) x ++ replicate d y.
Proof.
  rewrite insert_app_r_alt by (rewrite length_replicate; lia).
  rewrite length_replicate, Nat.sub_diag.
  change (<[0%nat:=x]> (replicate (S d) y)) with ([x] ++ replicate d y).
  by rewrite app_assoc, replicate_snoc.
Qed.

Lemma nets_take_sentinels cls s0 pc pq ps d :
  ∀ k s,
    shape s0 pc (replicate d None) pq (replicate k N_done ++ replicate d N_get) ps s →
    ∃ s', exec cls (each_net k d) s = Some s'
      ∧ shape s0 pc [] pq (replicate (k + d) N_done) ps s'.
Proof.
  induction d as [|d IH]; intros k s (Hm & Hrq & Hpq & Hns & Hps & Hcfg & Hmr & Hmp & Hf).
  - exists s. split; [done|]. rewrite Nat.add_0_r.
    repeat split; try done. by rewrite Hns, app_nil_r.
  - assert (worker_network k idle s = Some (set_net k N_done
              (upd_crawler (with_request_queue
                 {| maxsize := maxsize (_request_queue (crawler s));
                    items := replicate d None |}) s))) as Hstep.
    { unfold worker_network. rewrite Hns.
      rewrite lookup_app_r by (rewrite length_replicate; lia).
      rewrite length_replicate, Nat.sub_diag. simpl.
      unfold get. rewrite Hrq. reflexivity. }
    edestruct (IH (S k)) as (s' & Hexec & Hshape).
    2:{ exists s'. split.
        - unfold each_net. simpl. rewrite Hstep. simpl. exact Hexec.
        - by rewrite Nat.add_succ_r. }
    repeat split; simpl; try done. by rewrite Hns, insert_replicate_next.
Qed.

Lemma parsers_take_sentinels cls s0 pc rq ns d :
  ∀ k s,
    shape s0 pc rq (replicate d None) ns (replicate k P_done ++ replicate d P_get) s →
    ∃ s', exec cls (each_parser k d) s = Some s'
      ∧ shape s0 pc rq [] ns (replicate (k + d) P_done) s'.
Proof.
  induction d as [|d IH]; intros k s (Hm & Hrq & Hpq & Hns & Hps & Hcfg & Hmr & Hmp & Hf).
  - exists s. split; [done|]. rewrite Nat.add_0_r.
    repeat split; try done. by rewrite Hps, app_nil_r.
  - assert (worker_parser k s = Some (set_par k P_done
              (upd_crawler (with_response_queue
                 {| maxsize := maxsize (_response_queue (crawler s));
                    items := replicate d None |}) s))) as Hstep.
    { unfold worker_parser. rewrite Hps.
      rewrite lookup_app_r by (rewrite length_replicate; lia).
      rewrite length_replicate, Nat.sub_diag. simpl.
      unfold get. rewrite Hpq. reflexivity. }
    edestruct (IH (S k)) as (s' & Hexec & Hshape).
    2:{ exists s'. split.
        - unfold each_parser. simpl. rewrite Hstep. simpl. exact Hexec.
        - by rewrite Nat.add_succ_r. }
    repeat split; simpl; try done. by rewrite Hps, insert_replicate_next.
Qed.

Lemma nets_joined cls s0 pend rq pq ps n d :
  ∀ k s, (k + d = n)%nat →
    shape s0 (R_join_net k pend) rq pq (replicate n N_done) ps s →
    ∃ s', exec cls (replicate (S d) LMain) s = Some s'
      ∧ shape s0 (R_join_par 0 pend) rq pq (replicate n N_done) ps s'.
Proof.
  induction d as [|d IH]; intros k s Hk (Hm & Hrq & Hpq & Hns & Hps & Hcfg & Hmr & Hmp & Hf).
  - eexists. split.
    { eapply exec_step; [|reflexivity]. simpl. unfold run. rewrite Hm, Hns.
      rewrite (proj1 (lookup_replicate_None _ _ _)) by lia. reflexivity. }
    by repeat split.
  - edestruct (IH (S k)) as (s' & Hexec & Hshape); [lia| |].
    2:{ exists s'. split; [|exact Hshape]. eapply exec_step; [|exact Hexec].
        simpl. unfold run. rewrite Hm, Hns.
        rewrite lookup_replicate_2 by lia. reflexivity. }
    by repeat split.
Qed.

Lemma parsers_joined cls s0 pend rq pq ns n d :
  ∀ k s, (k + d = n)%nat →
    shape s0 (R_join_par k pend) rq pq ns (replicate n P_done) s →
    ∃ s', exec cls (replicate (S d) LMain) s = Some s'
      ∧ shape s0 (R_drain pend) rq pq ns (replicate n P_done) s'.
Proof.
  induction d as [|d IH]; intros k s Hk (Hm & Hrq & Hpq & Hns & Hps & Hcfg & Hmr & Hmp & Hf).
  - eexists. split.
    { eapply exec_step; [|reflexivity]. simpl. unfold run. rewrite Hm, Hps.
      rewrite (proj1 (lookup_replicate_None _ _ _)) by lia. reflexivity. }
    by repeat split.
  - edestruct (IH (S k)) as (s' & Hexec & Hshape); [lia| |].
    2:{ exists s'. split; [|exact Hshape]. eapply exec_step; [|exact Hexec].
        simpl. unfold run. rewrite Hm, Hps.
        rewrite lookup_replicate_2 by lia. reflexivity. }
    by repeat split.
Qed.

Lemma shape_refl s :
  shape s (main s) (items (_request_queue (crawler s)))
    (items (_response_queue (crawler s))) (nets s) (parsers s) s.
Proof. by repeat split. Qed.

Lemma teardown_joins cls s pend :
  pools_ok s → idle_pools s → main s = R_sent_net 0 pend →
  ∃ s', exec cls (teardown_schedule (length (nets s)) (length (parsers s))) s = Some s'
    ∧ shape s (R_drain pend) [] [] (replicate (length (nets s)) N_done)
        (replicate (length (parsers s)) P_done) s'.
Proof.
  intros (_ & Hmr & Hmp & Hlen) (Hrq & Hpq & Hns & Hps) Hm.
  rewrite Hm in Hlen. destruct Hlen as (Hn & _ & Hp & _).
  pose proof (shape_refl s) as Hs. rewrite Hm, Hrq, Hpq, Hns, Hps in Hs.
  set (N := length (nets s)) in *. set (M := length (parsers s)) in *.
  destruct (net_sentinels cls s pend [] (replicate N N_get) (replicate M P_get) N
              Hmr 0%nat s ltac:(lia) Hs) as (s1 & H1 & Hs1).
  rewrite <- Hn in Hs1.
  destruct (parser_sentinels cls s pend (replicate N None) (replicate N N_get)
              (replicate M P_get) M Hmp 0%nat s1 ltac:(lia) Hs1) as (s2 & H2 & Hs2).
  rewrite <- Hp in Hs2.
  destruct (nets_take_sentinels cls s (R_join_net 0 pend) (replicate M None)
              (replicate M P_get) N 0%nat s2 Hs2) as (s3 & H3 & Hs3).
  destruct (parsers_take_sentinels cls s (R_join_net 0 pend) []
              (replicate (0 + N) N_done) M 0%nat s3 Hs3) as (s4 & H4 & Hs4).
  simpl in Hs4.
  destruct (nets_joined cls s pend [] [] (replicate M P_done) N N 0%nat s4
              ltac:(lia) Hs4) as (s5 & H5 & Hs5).
  destruct (parsers_joined cls s pend [] [] (replicate N N_done) M M 0%nat s5
              ltac:(lia) Hs5) as (s6 & H6 & Hs6).
  exists s6. split; [|exact Hs6]. unfold teardown_schedule.
  repeat (eapply exec_app_Some; [eassumption|]). exact H6.
Qed.

(** With cooperative workers the teardown ends: [run] raises the error left
    on the fatal channel, else the error of the main loop, else returns;
    [shutdown_hook] is called unless line 242 raises. *)
Lemma teardown_completes cls cpu n lim tlim pool s pend :
  reachable cls (__init__ cpu n lim tlim) pool s →
  main s = R_sent_net 0 pend → idle_pools s →
  ∃ sched s', exec cls sched s = Some s'
    ∧ main s' = teardown_outcome (items (_fatal_errors (crawler s))) pend
    ∧ all_nets_done s' ∧ all_parsers_finished s'
    ∧ shutdown_hook_calls s'
      = match items (_fatal_errors (crawler s)) with [] => 1%nat | _ => 0%nat end.
Proof.
  intros Hreach Hm Hidle.
  pose proof (reachable_pools_ok _ _ _ _ _ _ _ Hreach) as Hp.
  destruct (teardown_joins cls s pend Hp Hidle Hm)
    as (s1 & H1 & (Hm1 & _ & _ & Hns & Hps & _ & _ & _ & Hf)).
  assert (shutdown_hook_calls s1 = 0%nat) as Hhook.
  { pose proof (reachable_exec _ _ _ _ _ _ Hreach H1) as Hreach1.
    destruct (reachable_teardown_ok _ _ _ _ _ _ _ Hreach1) as [_ (_ & _ & Ht)].
    rewrite Hm1 in Ht. by destruct_and?. }
  assert (∀ s2, nets s2 = nets s1 → parsers s2 = parsers s1 →
                all_nets_done s2 ∧ all_parsers_finished s2) as Hdone.
  { intros s2 Hn2 Hp2. split.
    - intros i pc. rewrite Hn2, Hns. by intros [-> _]%lookup_replicate.
    - intros j pc. rewrite Hp2, Hps. by intros [-> _]%lookup_replicate. }
  unfold teardown_outcome.
  destruct (items (_fatal_errors (crawler s))) as [|ex rest] eqn:Hitems.
  - exists (teardown_schedule (length (nets s)) (length (parsers s)) ++ [LMain; LMain]).
    destruct pend as [ex|]; eexists; (split;
      [ eapply exec_app_Some; [exact H1|];
        eapply exec_step;
          [ simpl; unfold run; rewrite Hm1; unfold get; rewrite Hf, Hitems; reflexivity |];
        eapply exec_step; [|reflexivity];
        simpl; unfold run; simpl; reflexivity
      | simpl; (split; [done|]); (split; [by apply Hdone|]);
        (split; [by apply Hdone|]);
        unfold shutdown_hook_calls, count in *; simpl; by rewrite Hhook ]).
  - exists (teardown_schedule (length (nets s)) (length (parsers s)) ++ [LMain]).
    eexists. split.
    { eapply exec_app_Some; [exact H1|].
      eapply exec_step; [|reflexivity].
      simpl. unfold run. rewrite Hm1. unfold get. rewrite Hf, Hitems. reflexivity. }
    simpl. split; [done|]. split; [by apply Hdone|]. split; [by apply Hdone|].
    exact Hhook.
Qed.

(** X17. The teardown of [run] ends whenever the workers cooperate: from
    the first line of the [finally] block, with both queues empty and
    every worker of both pools waiting in [get], there is a schedule (the
    sentinels, one [get] per worker, the joins) after which every worker
    has returned and [run] has raised the first error left on the fatal
    channel, else re-raised the error of the main loop, else returned;
    [shutdown_hook] has been called once, unless an error was left on the
    channel. *)
Theorem teardown_ends_when_workers_wait cls cpu n lim tlim pool s pend :
  reachable cls (__init__ cpu n lim tlim) pool s →
  main s = R_sent_net 0 pend → idle_pools s →
  ∃ sched s', exec cls sched s = Some s'
    ∧ main s' = teardown_outcome (items (_fatal_errors (crawler s))) pend
    ∧ all_nets_done s' ∧ all_parsers_finished s'
    ∧ shutdown_hook_calls s'
      = match items (_fatal_errors (crawler s)) with [] => 1%nat | _ => 0%nat end.
Proof. apply teardown_completes. Qed.

Lemma teardown_ends_when_workers_wait_witness :
  let s := after crawler_a sched_shutdown (boot (__init__ 6 2 10 10) pool_a) in
  reachable crawler_a (__init__ 6 2 10 10) pool_a s
  ∧ main s = R_sent_net 0 None ∧ idle_pools s
  ∧ ∃ sched s', exec crawler_a sched s = Some s'
      ∧ main s' = teardown_outcome (items (_fatal_errors (crawler s))) None
      ∧ all_nets_done s' ∧ all_parsers_finished s'
      ∧ shutdown_hook_calls s'
        = match items (_fatal_errors (crawler s)) with [] => 1%nat | _ => 0%nat end.
Proof.
  assert (reachable crawler_a (__init__ 6 2 10 10) pool_a
            (after crawler_a sched_shutdown (boot (__init__ 6 2 10 10) pool_a))) as Hr
    by (exists sched_shutdown; vm_compute; reflexivity).
  assert (idle_pools
            (after crawler_a sched_shutdown (boot (__init__ 6 2 10 10) pool_a))) as Hidle
    by (repeat split).
  split; [exact Hr|]. split; [reflexivity|]. split; [exact Hidle|].
  exact (teardown_ends_when_workers_wait crawler_a 6 2 10 10 pool_a _ None Hr
           eq_refl Hidle).
Defined.

(** ** Shutdown at quiescence *)

(** In this section [s0] is a state in which the generator thread has
    ended, the three queues are empty and every network worker waits in
    [get] with its flag clear. *)
Section quiescence.
Variable cls : CrawlerClass.
Variable s0 : Sys.
Hypothesis Hgen : gen_alive (gen s0) = false.
Hypothesis Hrq : items (_request_queue (crawler s0)) = [].
Hypothesis Hpq : items (_response_queue (crawler s0)) = [].
Hypothesis Hfat : items (_fatal_errors (crawler s0)) = [].
Hypothesis Hnets : nets s0 = replicate (length (nets s0)) N_get.
Hypothesis Hnt : _net_threads (crawler s0) = net_entry <$> nets s0.

Ltac open_calm H :=
  destruct H as (Hm & Hw & Hres & Hps & Hpt & Hg & Hns & Hnts & Hq & Hr & Hf & Hcfg).

Ltac use_facts :=
  repeat match goal with
  | H : main _ = _ |- _ => rewrite H
  | H : _work_allowed _ = _ |- _ => rewrite H
  | H : is_set _ = _ |- _ => rewrite H
  | H : gen _ = _ |- _ => rewrite H
  | H : gen_alive _ = _ |- _ => rewrite H
  | H : _request_queue _ = _ |- _ => rewrite H
  | H : _response_queue _ = _ |- _ => rewrite H
  | H : _fatal_errors _ = _ |- _ => rewrite H
  | H : items _ = [] |- _ => rewrite H
  end.

Ltac main_go :=
  eapply exec_step;
  [ simpl; unfold run; simpl; use_facts; unfold get, qsize; simpl; use_facts;
    simpl; reflexivity |].

Ltac par_go :=
  eapply exec_step;
  [ simpl; unfold worker_parser; simpl;
    rewrite ?list_lookup_insert_eq by (by rewrite ?length_insert);
    simpl; unfold get; use_facts; simpl; reflexivity |].

Lemma parsers_pause pc w res d :
  ∀ k s, calm s0 pc w res (replicate k P_wait ++ replicate d P_get) s →
    ∃ s', exec cls (pause_each k d) s = Some s'
      ∧ calm s0 pc w res (replicate (k + d) P_wait) s'.
Proof.
  induction d as [|d IH]; intros k s Hc.
  { exists s. split; [done|]. by rewrite Nat.add_0_r, app_nil_r in *. }
  open_calm Hc.
  assert (parsers s !! k = Some P_get) as Hk.
  { rewrite Hps, lookup_app_r by (rewrite length_replicate; lia).
    by rewrite length_replicate, Nat.sub_diag. }
  pose proof (lookup_lt_Some _ _ _ Hk) as Hlt.
  eassert (exec cls [LPar k; LPar k; LPar k] s = Some _) as H1.
  { eapply exec_step.
    { simpl. unfold worker_parser. rewrite Hk. simpl. unfold get. rewrite Hr, Hpq.
      reflexivity. }
    par_go. par_go. reflexivity. }
  edestruct (IH (S k)) as (s' & Hex & Hc').
  2:{ exists s'. split; [|by rewrite Nat.add_succ_r].
      unfold pause_each. simpl.
      change (exec cls ([LPar k; LPar k; LPar k] ++ pause_each (S k) d) s = Some s').
      eapply exec_app_Some; [exact H1|exact Hex]. }
  unfold calm. split_and!; try done.
  - cbn [parsers set_par upd_crawler].
    rewrite !list_insert_insert_eq, Hps. apply insert_replicate_next.
  - cbn [crawler set_par upd_crawler _parser_threads with_parser_threads].
    rewrite Hpt, <- insert_replicate_next.
    eapply alter_fmap_insert; [|done].
    rewrite lookup_app_r by (rewrite length_replicate; lia).
    by rewrite length_replicate, Nat.sub_diag.
Qed.
Lemma parsers_wake pc w d :
  ∀ k s, calm s0 pc w true (replicate k P_get ++ replicate d P_wait) s →
    ∃ s', exec cls (wake_each k d) s = Some s'
      ∧ calm s0 pc w true (replicate (k + d) P_get) s'.
Proof.
  induction d as [|d IH]; intros k s Hc.
  { exists s. split; [done|]. by rewrite Nat.add_0_r, app_nil_r in *. }
  open_calm Hc.
  assert (parsers s !! k = Some P_wait) as Hk.
  { rewrite Hps, lookup_app_r by (rewrite length_replicate; lia).
    by rewrite length_replicate, Nat.sub_diag. }
  pose proof (lookup_lt_Some _ _ _ Hk) as Hlt.
  eassert (exec cls [LPar k; LPar k] s = Some _) as H1.
  { eapply exec_step.
    { simpl. unfold worker_parser. rewrite Hk. simpl. rewrite Hres. reflexivity. }
    par_go. reflexivity. }
  edestruct (IH (S k)) as (s' & Hex & Hc').
  2:{ exists s'. split; [|by rewrite Nat.add_succ_r].
      unfold wake_each. simpl.
      change (exec cls ([LPar k; LPar k] ++ wake_each (S k) d) s = Some s').
      eapply exec_app_Some; [exact H1|exact Hex]. }
  unfold calm. split_and!; try done.
  - cbn [parsers set_par upd_crawler].
    rewrite !list_insert_insert_eq, Hps. apply insert_replicate_next.
  - cbn [crawler set_par upd_crawler _parser_threads with_parser_threads].
    rewrite Hpt, <- insert_replicate_next.
    eapply alter_fmap_insert; [|done].
    rewrite lookup_app_r by (rewrite length_replicate; lia).
    by rewrite length_replicate, Nat.sub_diag.
Qed.

(** The scan of lines 194-197 over parsers that are all paused. *)
Lemma scan_paused w res m d :
  ∀ k s, (k + d = m)%nat →
    calm s0 (R_wait_paused k) w res (replicate m P_wait) s →
    ∃ s', exec cls (replicate (S d) LMain) s = Some s'
      ∧ calm s0 R_c1 w res (replicate m P_wait) s'.
Proof.
  induction d as [|d IH]; intros k s Hk Hc; open_calm Hc.
  - eexists. split.
    { eapply exec_step; [|reflexivity]. simpl. unfold run. rewrite Hm, Hpt.
      rewrite list_lookup_fmap, (proj1 (lookup_replicate_None _ _ _)) by lia.
      reflexivity. }
    by unfold calm.
  - edestruct (IH (S k)) as (s' & Hex & Hc'); [lia| |].
    2:{ exists s'. split; [|exact Hc']. eapply exec_step; [|exact Hex].
        simpl. unfold run. rewrite Hm, Hpt.
        rewrite list_lookup_fmap, lookup_replicate_2 by lia. reflexivity. }
    by unfold calm.
Qed.

(** The scan of lines 221-224 over parsers that have all woken up. *)
Lemma scan_unpaused w res m d :
  ∀ k s, (k + d = m)%nat →
    calm s0 (R_wait_unpaused k) w res (replicate m P_get) s →
    ∃ s', exec cls (replicate (S d) LMain) s = Some s'
      ∧ calm s0 R_resume_clear w res (replicate m P_get) s'.
Proof.
  induction d as [|d IH]; intros k s Hk Hc; open_calm Hc.
  - eexists. split.
    { eapply exec_step; [|reflexivity]. simpl. unfold run. rewrite Hm, Hpt.
      rewrite list_lookup_fmap, (proj1 (lookup_replicate_None _ _ _)) by lia.
      reflexivity. }
    by unfold calm.
  - edestruct (IH (S k)) as (s' & Hex & Hc'); [lia| |].
    2:{ exists s'. split; [|exact Hc']. eapply exec_step; [|exact Hex].
        simpl. unfold run. rewrite Hm, Hpt.
        rewrite list_lookup_fmap, lookup_replicate_2 by lia. reflexivity. }
    by unfold calm.
Qed.

(** The scan of lines 208-211 over network workers that all wait in [get]. *)
Lemma scan_inactive w res ps d :
  ∀ k s, (k + d = length (nets s0))%nat →
    calm s0 (R_c3 k) w res ps s →
    ∃ s', exec cls (replicate (S d) LMain) s = Some s'
      ∧ calm s0 R_disallow w res ps s'.
Proof.
  induction d as [|d IH]; intros k s Hk Hc; open_calm Hc.
  - eexists. split.
    { eapply exec_step; [|reflexivity]. simpl. unfold run. rewrite Hm, Hnts, Hnt, Hnets.
      rewrite list_lookup_fmap, (proj1 (lookup_replicate_None _ _ _)) by lia.
      reflexivity. }
    by unfold calm.
  - edestruct (IH (S k)) as (s' & Hex & Hc'); [lia| |].
    2:{ exists s'. split; [|exact Hc']. eapply exec_step; [|exact Hex].
        simpl. unfold run. rewrite Hm, Hnts, Hnt, Hnets.
        rewrite list_lookup_fmap, lookup_replicate_2 by lia. reflexivity. }
    by unfold calm.
Qed.

(** Lines 180-193: no fatal error, the generator has ended, both queues
    are empty. *)
Lemma check_begins res ps s :
  calm s0 R_loop true res ps s →
  ∃ s', exec cls (replicate 6 LMain) s = Some s'
    ∧ calm s0 (R_wait_paused 0) true res ps s'.
Proof.
  intros Hc. open_calm Hc. eexists. split.
  { do 6 main_go. reflexivity. }
  by unfold calm.
Qed.

(** Lines 206-207. *)
Lemma check_sizes w res ps s :
  calm s0 R_c1 w res ps s →
  ∃ s', exec cls (replicate 2 LMain) s = Some s' ∧ calm s0 (R_c3 0) w res ps s'.
Proof.
  intros Hc. open_calm Hc. eexists. split.
  { do 2 main_go. reflexivity. }
  by unfold calm.
Qed.

(** Lines 214-219. *)
Lemma check_disallows w res ps s :
  calm s0 R_disallow w res ps s →
  ∃ s', exec cls (replicate 3 LMain) s = Some s'
    ∧ calm s0 (R_wait_unpaused 0) false true ps s'.
Proof.
  intros Hc. open_calm Hc. eexists. split.
  { do 3 main_go. reflexivity. }
  by unfold calm.
Qed.

(** Line 226 and the loop condition of line 180, now false. *)
Lemma check_ends res ps s :
  calm s0 R_resume_clear false res ps s →
  ∃ s', exec cls (replicate 2 LMain) s = Some s'
    ∧ calm s0 (R_sent_net 0 None) false false ps s'.
Proof.
  intros Hc. open_calm Hc. eexists. split.
  { do 2 main_go. reflexivity. }
  by unfold calm.
Qed.

Lemma quiescent_check s :
  calm s0 R_loop true false (replicate (length (parsers s0)) P_get) s →
  ∃ s', exec cls (quiescence_schedule (length (nets s0)) (length (parsers s0))) s
        = Some s'
    ∧ calm s0 (R_sent_net 0 None) false false
        (replicate (length (parsers s0)) P_get) s'.
Proof.
  intros Hc. set (M := length (parsers s0)) in *.
  destruct (parsers_pause R_loop true false M 0%nat s Hc) as (s1 & H1 & Hc1).
  destruct (check_begins _ _ _ Hc1) as (s2 & H2 & Hc2).
  destruct (scan_paused _ _ M M 0%nat s2 ltac:(lia) Hc2) as (s3 & H3 & Hc3).
  destruct (check_sizes _ _ _ _ Hc3) as (s4 & H4 & Hc4).
  destruct (scan_inactive _ _ _ (length (nets s0)) 0%nat s4 ltac:(lia) Hc4)
    as (s5 & H5 & Hc5).
  destruct (check_disallows _ _ _ _ Hc5) as (s6 & H6 & Hc6).
  destruct (parsers_wake (R_wait_unpaused 0) false M 0%nat s6) as (s7 & H7 & Hc7).
  { exact Hc6. }
  destruct (scan_unpaused _ _ M M 0%nat s7 ltac:(lia) Hc7) as (s8 & H8 & Hc8).
  destruct (check_ends _ _ _ Hc8) as (s9 & H9 & Hc9).
  exists s9. split; [|exact Hc9]. unfold quiescence_schedule.
  repeat (eapply exec_app_Some; [eassumption|]). exact H9.
Qed.
End quiescence.


(** X18. At quiescence [run] can shut the engine down and return: when the
    generator thread has ended, no fatal error is pending, both queues are
    empty and every worker of both pools waits in [get], there is a
    schedule (the parsers time out and pause, the orchestrator makes the
    check of lines 187-226 and disallows work, the parsers wake up, the
    [finally] block runs) after which [run] has returned, every worker has
    returned, [shutdown_hook] has been called exactly once and
    [_work_allowed] is false. *)
Theorem quiescent_run_returns cls cpu n lim tlim pool s :
  reachable cls (__init__ cpu n lim tlim) pool s →
  main s = R_loop → _work_allowed (crawler s) = true →
  gen_alive (gen s) = false →
  items (_fatal_errors (crawler s)) = [] →
  idle_pools s →
  ∃ sched s', exec cls sched s = Some s'
    ∧ main s' = R_returned
    ∧ all_nets_done s' ∧ all_parsers_finished s'
    ∧ shutdown_hook_calls s' = 1%nat
    ∧ _work_allowed (crawler s') = false.
Proof.
  intros Hr Hm Hw Hgen Hfat (Hrq & Hpq & Hns & Hps).
  destruct (reachable_flags_ok _ _ _ _ _ _ _ Hr) as [Hnt Hpt].
  assert (events_ok s) as [_ Hres].
  { eapply (reachable_invariant _ _ _ events_ok); [| |exact Hr]; [done|].
    intros. by eapply events_ok_step. }
  rewrite Hm in Hres. simpl in Hres.
  destruct (quiescent_check cls s Hgen Hrq Hpq Hfat Hns Hnt s) as (s1 & H1 & Hc1).
  { unfold calm. rewrite <- Hps. by split_and!. }
  destruct Hc1 as (Hm1 & Hw1 & _ & Hps1 & _ & _ & Hns1 & _ & Hq1 & Hr1 & Hf1 & _).
  pose proof (reachable_exec _ _ _ _ _ _ Hr H1) as Hreach1.
  destruct (teardown_completes cls cpu n lim tlim pool s1 None Hreach1 Hm1)
    as (sched & s2 & H2 & Hm2 & Hn2 & Hp2 & Hhook).
  { unfold idle_pools. rewrite Hq1, Hr1, Hns1, Hps1, Hrq, Hpq, length_replicate.
    by split_and!. }
  rewrite Hf1, Hfat in Hm2, Hhook.
  eexists _, s2. split; [by eapply exec_app_Some|].
  split_and!; try done.
  revert H2. apply (exec_invariant cls (λ s, _work_allowed (crawler s) = false)); [|done].
  intros l sa sb Hsa Hst. by eapply work_allowed_step.
Qed.

Lemma quiescent_run_returns_witness :
  let s := after crawler_base [LMain; LGen] (boot (__init__ 6 2 10 10) ∅) in
  reachable crawler_base (__init__ 6 2 10 10) ∅ s
  ∧ main s = R_loop ∧ _work_allowed (crawler s) = true
  ∧ gen_alive (gen s) = false
  ∧ items (_fatal_errors (crawler s)) = []
  ∧ idle_pools s
  ∧ ∃ sched s', exec crawler_base sched s = Some s'
      ∧ main s' = R_returned
      ∧ all_nets_done s' ∧ all_parsers_finished s'
      ∧ shutdown_hook_calls s' = 1%nat
      ∧ _work_allowed (crawler s') = false.
Proof.
  assert (reachable crawler_base (__init__ 6 2 10 10) ∅
            (after crawler_base [LMain; LGen] (boot (__init__ 6 2 10 10) ∅))) as Hr
    by (exists [LMain; LGen]; vm_compute; reflexivity).
  assert (idle_pools
            (after crawler_base [LMain; LGen] (boot (__init__ 6 2 10 10) ∅))) as Hidle
    by (repeat split).
  split; [exact Hr|]. split_and!; [reflexivity..|exact Hidle|].
  exact (quiescent_run_returns crawler_base 6 2 10 10 ∅ _ Hr eq_refl eq_refl eq_refl
           eq_refl Hidle).
Defined.
